(** * wafel graphics extension module (ext_modules/graphics/init.cpp)

    A shallow embedding of the address rebaser ([segmented_to_virtual],
    [GameState::from_base]), of the scene construction done by [render]
    (surface classification, [current_index], the [mario_path] loop) and of
    the display-list interpreter [interpret_display_list], with the
    properties of the design document checked against them. *)

From Stdlib Require Import ZArith Bool Lia String Uint63 Floats.
From stdpp Require Import base list.

#[local] Set Warnings "-inexact-float".

Open Scope Z_scope.

(** * Platform and memory model *)

(** What the unit takes from the platform and from [libsm64.h], which it only
    includes: the width of a host pointer, the sizes of the structures it
    indexes, and the active-flag bit of an object. *)
Record Layout : Type := {
  ptr_bits : nat;
  sizeof_SM64State : Z;
  sizeof_Surface : Z;
  sizeof_Vtx : Z;
  ACTIVE_FLAG_ACTIVE : Z
}.

(** A process that returns normally, or that prints [err] on stderr and
    calls [exit(status)]. *)
Inductive outcome (A : Type) : Type :=
| Returned (a : A)
| Exited (status : Z) (err : string).
Arguments Returned {A} a.
Arguments Exited {A} status err.

(** The null pointer, [(void * )0]. *)
Definition NULL : Z := 0.

(** One entry of [sSegmentTable]. *)
Record Segment : Type := {
  srcStart : Z;
  srcEnd : Z;
  dstStart : Z
}.

(** [struct GameState]: a frame id, the reference image and the snapshot. *)
Record GameState : Type := {
  frame : Z;
  base : Z;
  data : Z
}.

Definition newline : string := String (Ascii.ascii_of_nat 10) EmptyString.

Definition two_segments_warning : string :=
  ("Warning: segmented_to_virtual: Found two segments containing address" ++ newline)%string.

Section Rebaser.

Variable L : Layout.

(** Host addresses are numbers below [ptr_modulus]; pointer arithmetic wraps. *)
Definition ptr_modulus : Z := 2 ^ Z.of_nat (ptr_bits L).

Definition ptr (a : Z) : Z := a mod ptr_modulus.

(** [srcStart <= addr && addr < srcEnd] *)
Definition segment_contains (s : Segment) (addr : Z) : bool :=
  (srcStart s <=? addr) && (addr <? srcEnd s).

(** [(u8 * )addr - (u8 * )srcStart + (u8 * )dstStart] *)
Definition segment_translate (s : Segment) (addr : Z) : Z :=
  ptr (addr - srcStart s + dstStart s).

(** The loop of [segmented_to_virtual], [n] iterations from index [i] on, with
    the local [result] threaded through. *)
Fixpoint segment_loop (n : nat) (table : nat -> Segment) (addr : Z) (i : nat) (result : Z)
  : outcome Z :=
  match n with
  | O => Returned result
  | S n' =>
      if segment_contains (table i) addr then
        if negb (result =? NULL) then
          Exited 1 two_segments_warning
        else
          segment_loop n' table addr (S i) (segment_translate (table i) addr)
      else segment_loop n' table addr (S i) result
  end.

(** [segmented_to_virtual(st, addr)], on the 32 entries of [st->sSegmentTable]. *)
Definition segmented_to_virtual (sSegmentTable : nat -> Segment) (addr : Z) : outcome Z :=
  match segment_loop 32 sSegmentTable addr 0 NULL with
  | Returned result => Returned (if result =? NULL then addr else result)
  | Exited status err => Exited status err
  end.

(** The indices of the descriptors whose source range contains [addr]. *)
Definition matching_segments (table : nat -> Segment) (addr : Z) : list nat :=
  filter (fun i => segment_contains (table i) addr = true) (seq 0 32).

(** [GameState::from_base]; [(char * )(base + 1)] is one image past [base]. *)
Definition from_base (st : GameState) (addr : Z) : Z :=
  if (addr <? base st) || (addr >=? ptr (base st + sizeof_SM64State L)) then addr
  else ptr (addr - base st + data st).

(** An image of [sizeof_SM64State] bytes lies at [a], below the top of the
    address space. *)
Definition valid_image (a : Z) : Prop :=
  0 <= a /\ 0 < sizeof_SM64State L /\ a + sizeof_SM64State L < ptr_modulus.

End Rebaser.

(** * Scene types ([renderer.hpp]) and the snapshot fields [render] reads *)

(** An [f32] is carried as the binary64 value it promotes to in a comparison
    with a [double] literal; the promotion is exact. *)
Record vec3 : Type := {
  vx : float;
  vy : float;
  vz : float
}.

Arguments Build_vec3 (vx vy vz)%_float.

(** An [s16] coordinate converted to [float], exactly. *)
Definition float_of_Z (z : Z) : float :=
  if z <? 0 then PrimFloat.opp (PrimFloat.of_uint63 (Uint63.of_Z (- z)))
  else PrimFloat.of_uint63 (Uint63.of_Z z).

Definition vec3_of_s16 (v : Z * Z * Z) : vec3 :=
  let '(x, y, z) := v in {| vx := float_of_Z x; vy := float_of_Z y; vz := float_of_Z z |}.

Inductive SurfaceType : Type := FLOOR | CEILING | WALL_X_PROJ | WALL_Z_PROJ.

Record Surface : Type := {
  surface_type : SurfaceType;
  surface_vertices : vec3 * vec3 * vec3;
  surface_normal : vec3
}.

Record Object : Type := {
  object_pos : vec3;
  object_hitboxHeight : float;
  object_hitboxRadius : float
}.

Record QuarterStep : Type := {
  intended_pos : vec3;
  result_pos : vec3
}.

Record ObjectPathNode : Type := {
  node_pos : vec3;
  quarter_steps : list QuarterStep
}.

Record ObjectPath : Type := {
  nodes : list ObjectPathNode;
  root_index : nat
}.

Inductive Camera : Type :=
| ROTATE (pos : vec3) (pitch yaw fov_y : float)
| BIRDS_EYE (pos : vec3) (span_y : float).

Record Scene : Type := {
  camera : Camera;
  surfaces : list Surface;
  objects : list Object;
  object_paths : list ObjectPath
}.

(** [struct sm64::Surface], the fields read. *)
Record RawSurface : Type := {
  vertex1 : Z * Z * Z;
  vertex2 : Z * Z * Z;
  vertex3 : Z * Z * Z;
  normal : vec3
}.

(** [struct sm64::Object], the fields read. *)
Record RawObject : Type := {
  activeFlags : Z;
  oPos : vec3;
  hitboxHeight : float;
  hitboxRadius : float
}.

(** [struct sm64::QStepsInfo]: a counter and the array [steps], read at
    whatever index the loop reaches. *)
Record QStepsInfo : Type := {
  numSteps : Z;
  steps : nat -> QuarterStep
}.

(** The process memory as the unit reads it (it never writes to it): the
    fields of an [SM64State] image at a given address, and the structures
    that pointers found there lead to. *)
Record Memory : Type := {
  gSurfacesAllocated : Z -> Z;
  sSurfacePool : Z -> Z;
  load_Surface : Z -> RawSurface;
  gObjectPool : Z -> nat -> RawObject;
  gMarioState : Z -> Z;
  load_MarioState_pos : Z -> vec3;
  gQStepsInfo : Z -> QStepsInfo;
  load_u32 : Z -> Z;
  load_Vtx_ob : Z -> Z * Z * Z
}.

(** [struct RenderInfo] *)
Record RenderInfo : Type := {
  info_camera : Camera;
  current_state : GameState;
  path_states : list GameState
}.

Section SceneBuilder.

Variable L : Layout.
Variable mem : Memory.

(** The classification of [render]; the literals are [double]s. *)
Definition classify_surface (n : vec3) : SurfaceType :=
  if (0.01 <? vy n)%float then FLOOR
  else if (vy n <? -0.01)%float then CEILING
  else if (vx n <? -0.707)%float || (0.707 <? vx n)%float then WALL_X_PROJ
  else WALL_Z_PROJ.

(** One iteration of the surface loop: [&st.from_base(st.data->sSurfacePool)[i]]. *)
Definition scene_surface (st : GameState) (i : nat) : Surface :=
  let pool := from_base L st (sSurfacePool mem (data st)) in
  let surface := load_Surface mem (ptr L (pool + Z.of_nat i * sizeof_Surface L)) in
  {| surface_type := classify_surface (normal surface);
     surface_vertices :=
       (vec3_of_s16 (vertex1 surface), vec3_of_s16 (vertex2 surface),
        vec3_of_s16 (vertex3 surface));
     surface_normal := normal surface |}.

Definition scene_surfaces (st : GameState) : list Surface :=
  map (scene_surface st) (seq 0 (Z.to_nat (gSurfacesAllocated mem (data st)))).

(** The object loop over the 240 slots of [gObjectPool]. *)
Definition scene_objects (st : GameState) : list Object :=
  omap (fun i =>
          let obj := gObjectPool mem (data st) i in
          if Z.land (activeFlags obj) (ACTIVE_FLAG_ACTIVE L) =? 0 then None
          else Some {| object_pos := oPos obj;
                       object_hitboxHeight := hitboxHeight obj;
                       object_hitboxRadius := hitboxRadius obj |})
       (seq 0 240).

(** [GameState::operator==] *)
Definition GameState_eqb (a other : GameState) : bool := frame a =? frame other.

(** [std::distance(first, std::find(first, last, value))] *)
Fixpoint find_distance (states : list GameState) (value : GameState) : nat :=
  match states with
  | [] => O
  | s :: rest => if GameState_eqb s value then O else S (find_distance rest value)
  end.

(** [mario_path.empty()] *)
Definition empty (mario_path : list ObjectPathNode) : bool :=
  match mario_path with [] => true | _ => false end.

(** [mario_path.back().quarter_steps.push_back(q)] for each [q] of [qs] in turn. *)
Definition back_push_all (mario_path : list ObjectPathNode) (qs : list QuarterStep)
  : list ObjectPathNode :=
  alter (fun node => {| node_pos := node_pos node;
                        quarter_steps := quarter_steps node ++ qs |})
        (length mario_path - 1)%nat mario_path.

(** [!mario_path.empty() && mario_path.size() == current_index + 1] *)
Definition copy_condition (current_index : nat) (mario_path : list ObjectPathNode) : bool :=
  negb (empty mario_path) && (length mario_path =? current_index + 1)%nat.

(** The body of [for (GameState path_st : info->path_states)], on the path
    built so far and the numbers printed so far on stdout. *)
Definition mario_path_step (current_index : nat)
    (acc : list ObjectPathNode * list Z) (path_st : GameState)
  : list ObjectPathNode * list Z :=
  let '(mario_path, out) := acc in
  let m := from_base L path_st (gMarioState mem (data path_st)) in
  let '(mario_path, out) :=
    if copy_condition current_index mario_path then
      let qsteps := gQStepsInfo mem (data path_st) in
      let out := if 4 <? numSteps qsteps then out ++ [numSteps qsteps] else out in
      (back_push_all mario_path (map (steps qsteps) (seq 0 (Z.to_nat (numSteps qsteps)))),
       out)
    else (mario_path, out) in
  (mario_path ++ [ {| node_pos := load_MarioState_pos mem m; quarter_steps := [] |} ], out).

Definition build_mario_path (current_index : nat) (path_states : list GameState)
  : list ObjectPathNode * list Z :=
  fold_left (mario_path_step current_index) path_states ([], []).

(** The scene [render] hands to the renderer, and what the loop printed. *)
Definition build_scene (info : RenderInfo) : Scene * list Z :=
  let st := current_state info in
  let current_index := find_distance (path_states info) (current_state info) in
  let '(mario_path, out) := build_mario_path current_index (path_states info) in
  ({| camera := info_camera info;
      surfaces := scene_surfaces st;
      objects := scene_objects st;
      object_paths := [ {| nodes := mario_path; root_index := current_index |} ] |},
   out).

(** The fine-step log of a snapshot in log order, what the loop prints for
    it, and the node the loop appends for a snapshot. *)
Definition qsteps_log (path_st : GameState) : list QuarterStep :=
  let qsteps := gQStepsInfo mem (data path_st) in
  map (steps qsteps) (seq 0 (Z.to_nat (numSteps qsteps))).

Definition qsteps_diagnostic (path_st : GameState) : list Z :=
  let qsteps := gQStepsInfo mem (data path_st) in
  if 4 <? numSteps qsteps then [numSteps qsteps] else [].

Definition mario_node (path_st : GameState) (qs : list QuarterStep) : ObjectPathNode :=
  {| node_pos :=
       load_MarioState_pos mem (from_base L path_st (gMarioState mem (data path_st)));
     quarter_steps := qs |}.

End SceneBuilder.

(** * The display-list interpreter *)

(** [std::vector<vec3>]: the number of elements [size()], the storage the
    elements live in (allocated by the constructor and kept by [clear()],
    which only resets the number of elements), and whether the language still
    defines the behaviour of the program.  [operator[]] requires a subscript
    below [size()]; at or above it the behaviour is undefined (a library that
    checks subscripts stops the process there).  From the first such access
    on, [vec_defined] is [false]: what the model computes from then on is
    what the access does when the library does not check it, a read or a
    write of the storage, and nothing the language guarantees of the code.
    Outside the storage a write is dropped and a read gives zeros here; the
    interpreter never gets there (its indices are at most 30 and 25). *)
Record vector : Type := {
  vec_size : nat;
  vec_storage : list vec3;
  vec_defined : bool
}.

Definition vec3_zero : vec3 := {| vx := 0%float; vy := 0%float; vz := 0%float |}.

(** [vector<vec3> v(n)] *)
Definition vector_new (n : nat) : vector :=
  {| vec_size := n; vec_storage := replicate n vec3_zero; vec_defined := true |}.

(** [v.clear()] *)
Definition vector_clear (v : vector) : vector :=
  {| vec_size := O; vec_storage := vec_storage v; vec_defined := vec_defined v |}.

(** The precondition of [v[i]]: [i < v.size()]. *)
Definition vector_in_range (v : vector) (i : nat) : bool := (i <? vec_size v)%nat.

(** [v[i] = x]: defined for [i < v.size()] only. *)
Definition vector_set (v : vector) (i : nat) (x : vec3) : vector :=
  {| vec_size := vec_size v;
     vec_storage := <[i := x]> (vec_storage v);
     vec_defined := vec_defined v && vector_in_range v i |}.

(** [v[i]] read: the value, and whether the language defines the read
    ([i < v.size()]); when it does not, the value is the one an unchecked
    read finds in the storage. *)
Definition vector_get (v : vector) (i : nat) : vec3 * bool :=
  (default vec3_zero (vec_storage v !! i), vector_in_range v i).

(** The vector after reads of which [defined] tells whether all were defined. *)
Definition vector_read (v : vector) (defined : bool) : vector :=
  {| vec_size := vec_size v;
     vec_storage := vec_storage v;
     vec_defined := vec_defined v && defined |}.

(** [vector<vec3> loaded_vertices(32);] *)
Definition loaded_vertices_initial : vector := vector_new 32.

(** The calls made on the graphics context. *)
Inductive gl_call : Type :=
| glBegin_GL_LINE_LOOP
| glVertex3f (x y z : float)
| glEnd.

(** What an interpretation reads and writes besides the snapshot: the global
    [loaded_vertices] and the calls issued so far. *)
Record gfx : Type := {
  loaded_vertices : vector;
  gl_calls : list gl_call
}.

Definition u32 (x : Z) : Z := x mod 2 ^ 32.

Definition u8 (x : Z) : Z := x mod 2 ^ 8.

(** [%X] of one nibble and [%08X] of a word. *)
Definition hex_digit (d : Z) : Ascii.ascii :=
  if d <? 10 then Ascii.ascii_of_nat (Z.to_nat (48 + d))
  else Ascii.ascii_of_nat (Z.to_nat (55 + d)).

Definition hex8 (w : Z) : string :=
  fold_right (fun k s => String (hex_digit (Z.land (Z.shiftr w (4 * k)) 0xF)) s)
             EmptyString [7; 6; 5; 4; 3; 2; 1; 0].

(** The opcodes whose [case] is a bare [break]. *)
Definition ignored_opcodes : list Z :=
  [0x03; 0xB6; 0xB7; 0xB9; 0xBB; 0xE6; 0xE7; 0xE8; 0xF2; 0xF3; 0xF5; 0xFB; 0xFC; 0xFD].

Section Interpreter.

Variable L : Layout.
Variable mem : Memory.

(** [case 0x04]: [n], [v0] and the loop over the [n] vertices at [v]. *)
Definition gSPVertex_n (w0 : Z) : Z := u32 (Z.land (Z.shiftr w0 20) 0xF + 1).

Definition gSPVertex_v0 (w0 : Z) : Z := Z.land (Z.shiftr w0 16) 0xF.

Definition gSPVertex_slot (w0 : Z) (i : nat) : nat :=
  Z.to_nat (u32 (gSPVertex_v0 w0 + Z.of_nat i)).

Definition gSPVertex_position (st : GameState) (w1 : Z) (i : nat) : vec3 :=
  let v := from_base L st (ptr L w1) in
  vec3_of_s16 (load_Vtx_ob mem (ptr L (v + Z.of_nat i * sizeof_Vtx L))).

Definition gSPVertex (st : GameState) (w0 w1 : Z) (cache : vector) : vector :=
  fold_left (fun c i => vector_set c (gSPVertex_slot w0 i) (gSPVertex_position st w1 i))
            (seq 0 (Z.to_nat (gSPVertex_n w0)))
            (vector_clear cache).

(** [case 0xBF]: the three indices and the line loop. *)
Definition gSP1Triangle_index (w1 : Z) (shift : Z) : nat :=
  Z.to_nat (Z.land (Z.shiftr w1 shift) 0xFF / 10).

Definition gSP1Triangle (w1 : Z) (cache : vector) : list gl_call :=
  let vertex k :=
    let p := (vector_get cache (gSP1Triangle_index w1 k)).1 in
    glVertex3f (vx p) (vy p) (vz p) in
  [glBegin_GL_LINE_LOOP; vertex 16; vertex 8; vertex 0; glEnd].

(** [loaded_vertices] after the three reads of [case 0xBF]. *)
Definition gSP1Triangle_reads (w1 : Z) (cache : vector) : vector :=
  vector_read cache
    ((vector_get cache (gSP1Triangle_index w1 16)).2
     && (vector_get cache (gSP1Triangle_index w1 8)).2
     && (vector_get cache (gSP1Triangle_index w1 0)).2).

(** [interpret_display_list(st, dl, indent)].  Every turn of the [while] loop
    and every nested call takes one unit of [fuel]; [None] is a run that
    needs more than it was given. *)
Fixpoint interpret_display_list (fuel : nat) (st : GameState) (dl : Z) (indent : string)
    (g : gfx) : option (outcome gfx) :=
  match fuel with
  | O => None
  | S fuel' =>
      let w0 := u32 (load_u32 mem dl) in
      let w1 := u32 (load_u32 mem (ptr L (dl + 4))) in
      let cmd := u8 (Z.shiftr w0 24) in
      let next dl g := interpret_display_list fuel' st (ptr L (dl + 8)) indent g in
      if cmd =? 0x01 then
        Some (Exited 1 ("gSPMatrix" ++ newline)%string)
      else if cmd =? 0x04 then
        next dl {| loaded_vertices := gSPVertex st w0 w1 (loaded_vertices g);
                   gl_calls := gl_calls g |}
      else if cmd =? 0x06 then
        let new_dl := from_base L st (ptr L w1) in
        if w0 =? 0x06000000 then
          match interpret_display_list fuel' st new_dl (indent ++ "  ")%string g with
          | Some (Returned g') => next dl g'
          | stopped => stopped
          end
        else if w0 =? 0x06010000 then
          next (ptr L (new_dl - 8)) g
        else
          Some (Exited 1 ("gSPDisplayList: 0x" ++ hex8 w0 ++ newline)%string)
      else if cmd =? 0xB8 then
        Some (Returned g)
      else if cmd =? 0xBF then
        next dl {| loaded_vertices := gSP1Triangle_reads w1 (loaded_vertices g);
                   gl_calls := gl_calls g ++ gSP1Triangle w1 (loaded_vertices g) |}
      else if existsb (Z.eqb cmd) ignored_opcodes then
        next dl g
      else
        next dl g
  end.

(** The run from [dl] ends, with [r], when given enough fuel. *)
Definition runs_to (st : GameState) (dl : Z) (indent : string) (g : gfx)
    (r : outcome gfx) : Prop :=
  exists fuel, interpret_display_list fuel st dl indent g = Some r.

(** The two words of the command at [dl], its opcode, and the rebased
    operand of a [0x06] command. *)
Definition word0 (dl : Z) : Z := u32 (load_u32 mem dl).

Definition word1 (dl : Z) : Z := u32 (load_u32 mem (ptr L (dl + 4))).

Definition opcode (dl : Z) : Z := u8 (Z.shiftr (word0 dl) 24).

Definition list_target (st : GameState) (dl : Z) : Z := from_base L st (ptr L (word1 dl)).

End Interpreter.

(** * Object lists, fixed-point matrices and the display lists of the character *)

(** [get_object_list_from_behavior(behavior)], with [behavior[0]] read from
    memory; [OBJ_LIST_DEFAULT] is a constant of [libsm64.h]. *)
Definition get_object_list_from_behavior (mem : Memory) (OBJ_LIST_DEFAULT : Z) (behavior : Z)
  : Z :=
  let behavior0 := u32 (load_u32 mem behavior) in
  if Z.shiftr behavior0 24 =? 0 then Z.land (Z.shiftr behavior0 16) 0xFFFF
  else OBJ_LIST_DEFAULT.

(** [get_object_list(object)]; [object_behavior] reads [object->behavior]. *)
Definition get_object_list (mem : Memory) (OBJ_LIST_DEFAULT : Z) (object_behavior : Z -> Z)
    (object : Z) : Z :=
  get_object_list_from_behavior mem OBJ_LIST_DEFAULT (object_behavior object).

Definition u16 (x : Z) : Z := x mod 2 ^ 16.

(** The value of an [int] expression stored in an [s32]. *)
Definition s32 (x : Z) : Z := (x + 2 ^ 31) mod 2 ^ 32 - 2 ^ 31.

(** An [f32] of [matrix_fixed_to_float] is a binary32 number: 24 bits of
    precision, exponents up to 128. *)
Definition f32_of_s32 (val32 : Z) : spec_float := binary_normalize 24 128 val32 0 false.

Definition f32_div (x y : spec_float) : spec_float := SFdiv 24 128 x y.

(** [glm::mat4]: four columns of four [f32]; [m[c][r]] is row [r] of column [c]. *)
Definition mat4 : Type := list (list spec_float).

Definition mat4_get (m : mat4) (c r : nat) : option spec_float :=
  col ← m !! c; col !! r.

(** [m[c][r] = x] *)
Definition mat4_set (m : mat4) (c r : nat) (x : spec_float) : mat4 :=
  alter (fun col => <[r := x]> col) c m.

(** [(s32)((mtx[i] << 16) + mtx[16 + i])], on the [u16] array [mtx]. *)
Definition fixed_val32 (mtx : nat -> Z) (i : nat) : Z :=
  s32 (Z.shiftl (u16 (mtx i)) 16 + u16 (mtx (16 + i)%nat)).

(** [matrix_fixed_to_float(mtx)]; [result] is the matrix as declared, before
    the loop assigns to it. *)
Definition matrix_fixed_to_float (result : mat4) (mtx : nat -> Z) : mat4 :=
  fold_left (fun result i =>
               mat4_set result (i / 4) (i mod 4)
                 (f32_div (f32_of_s32 (fixed_val32 mtx i)) (f32_of_s32 0x10000)))
            (seq 0 16) result.

(** The fields [render] reads to find the display lists of the character:
    the heads of the eight lists of [gDisplayLists], the fields of a list
    node, [gMarioObject], and the [u16] words of a transform. *)
Record GraphMemory : Type := {
  gDisplayLists_unk14 : Z -> nat -> Z;
  gMarioObject : Z -> Z;
  node_object : Z -> Z;
  node_unk0 : Z -> Z;
  node_unk4 : Z -> Z;
  node_unk8 : Z -> Z;
  load_u16 : Z -> Z
}.

(** The calls of the last part of [render]: the matrix stack calls around
    each interpretation, and the calls the interpretation makes. *)
Inductive render_call : Type :=
| glPushMatrix
| glMultMatrixf (matrix : mat4)
| display_list_call (c : gl_call)
| glPopMatrix.

(** The global [loaded_vertices] and the calls issued so far. *)
Record overlay : Type := {
  overlay_vertices : vector;
  overlay_calls : list render_call
}.

Section CharacterDisplayLists.

Variable L : Layout.
Variable mem : Memory.
Variable graph : GraphMemory.

(** [glm::inverse(game_view_matrix) * matrix], computed by the renderer and
    glm, and the declared [mat4 result] of [matrix_fixed_to_float]. *)
Variable inverse_view_times : mat4 -> mat4.
Variable mat4_declared : mat4.

(** The [u16] array at [transform]. *)
Definition transform_words (transform : Z) (i : nat) : Z :=
  load_u16 graph (ptr L (transform + 2 * Z.of_nat i)).

(** The body of [if (mario_object != nullptr && object == mario_object)]. *)
Definition draw_node (fuel : nat) (st : GameState) (node : Z) (o : overlay)
  : option (outcome overlay) :=
  let transform := from_base L st (node_unk0 graph node) in
  let display_list := from_base L st (node_unk4 graph node) in
  let matrix := matrix_fixed_to_float mat4_declared (transform_words transform) in
  let matrix := inverse_view_times matrix in
  match interpret_display_list L mem fuel st display_list ""
          {| loaded_vertices := overlay_vertices o; gl_calls := [] |} with
  | Some (Returned g) =>
      Some (Returned
              {| overlay_vertices := loaded_vertices g;
                 overlay_calls :=
                   overlay_calls o ++ [glPushMatrix; glMultMatrixf matrix]
                   ++ map display_list_call (gl_calls g) ++ [glPopMatrix] |})
  | Some (Exited status err) => Some (Exited status err)
  | None => None
  end.

(** [while (node != nullptr)]: one unit of fuel per node, and the fuel left
    for the interpretation started at a node. *)
Fixpoint walk_nodes (fuel : nat) (st : GameState) (node : Z) (o : overlay)
  : option (outcome overlay) :=
  match fuel with
  | O => None
  | S fuel' =>
      if node =? NULL then Some (Returned o)
      else
        let object := from_base L st (node_object graph node) in
        let mario_object := from_base L st (gMarioObject graph (data st)) in
        let drawn :=
          if negb (mario_object =? NULL) && (object =? mario_object)
          then draw_node fuel' st node o
          else Some (Returned o) in
        match drawn with
        | Some (Returned o') =>
            walk_nodes fuel' st (from_base L st (node_unk8 graph node)) o'
        | stopped => stopped
        end
  end.

(** [for (int i = 0; i < 8; i++)], over the list heads [unk14[i]]. *)
Fixpoint walk_lists (fuel : nat) (st : GameState) (lists : list nat) (o : overlay)
  : option (outcome overlay) :=
  match lists with
  | [] => Some (Returned o)
  | i :: rest =>
      match walk_nodes fuel st (from_base L st (gDisplayLists_unk14 graph (data st) i)) o with
      | Some (Returned o') => walk_lists fuel st rest o'
      | stopped => stopped
      end
  end.

Definition render_display_lists (fuel : nat) (st : GameState) (o : overlay)
  : option (outcome overlay) :=
  walk_lists fuel st (seq 0 8) o.

(** The calls around one interpretation that issued [calls]. *)
Definition matrix_block (b : mat4 * list gl_call) : list render_call :=
  [glPushMatrix; glMultMatrixf b.1] ++ map display_list_call b.2 ++ [glPopMatrix].

End CharacterDisplayLists.

(** A state of the interpreter with [calls] issued before those of [g]. *)
Definition after_calls (calls : list gl_call) (g : gfx) : gfx :=
  {| loaded_vertices := loaded_vertices g; gl_calls := calls ++ gl_calls g |}.

(** How a run ended, without the state it ended in. *)
Definition ending (r : option (outcome gfx)) : option (option (Z * string)) :=
  match r with
  | None => None
  | Some (Returned _) => Some None
  | Some (Exited status err) => Some (Some (status, err))
  end.

(** * Notions used in the statements *)

(** A command that is not a matrix load, a vertex load, a call or branch, an
    end or a triangle. *)
Definition skipped (mem : Memory) (dl : Z) : Prop :=
  opcode mem dl <> 0x01 /\ opcode mem dl <> 0x04 /\ opcode mem dl <> 0x06 /\
  opcode mem dl <> 0xB8 /\ opcode mem dl <> 0xBF.

(** The classification as the design document words it, with one test on
    the magnitude of [normal.x]. *)
Definition classify_by_magnitude (n : vec3) : SurfaceType :=
  if (0.01 <? vy n)%float then FLOOR
  else if (vy n <? -0.01)%float then CEILING
  else if (0.707 <? abs (vx n))%float then WALL_X_PROJ
  else WALL_Z_PROJ.

(** The [f32] nearest to 0.01, which is what a normal stored with [y = 0.01f]
    holds; it lies below the [double] 0.01. *)
Definition f32_0_01 : float := 0x1.47ae14p-7%float.

(** The placement of the fine-step log as the design document words it: when
    the node of the current frame is appended and a node exists before it,
    the node before the current one receives the log of the snapshot of the
    frame before the current one, and no other node receives anything. *)
Definition claimed_quarter_steps (L : Layout) (mem : Memory) (info : RenderInfo) : Prop :=
  let history := path_states info in
  let current_index := find_distance history (current_state info) in
  forall (path : ObjectPath) (prev : nat) (s_prev : GameState),
    object_paths (build_scene L mem info).1 = [path] ->
    (current_index < length history)%nat ->
    current_index = S prev ->
    history !! prev = Some s_prev ->
    (exists node, nodes path !! prev = Some node /\
                  quarter_steps node = qsteps_log mem s_prev) /\
    (forall j node, j <> prev -> nodes path !! j = Some node -> quarter_steps node = []).

(** * Concrete inputs *)

(** A 32-bit host with a one-megabyte image. *)
Definition layout32 : Layout :=
  {| ptr_bits := 32;
     sizeof_SM64State := 0x100000;
     sizeof_Surface := 48;
     sizeof_Vtx := 16;
     ACTIVE_FLAG_ACTIVE := 1 |}.

Definition unused_segment : Segment :=
  {| srcStart := 0; srcEnd := 0; dstStart := 0 |}.

(** Two descriptors over the same source range; the first one maps it to
    address 0. *)
Definition overlapping_table (i : nat) : Segment :=
  match i with
  | 0%nat => {| srcStart := 0x1000; srcEnd := 0x2000; dstStart := 0 |}
  | 1%nat => {| srcStart := 0x1000; srcEnd := 0x2000; dstStart := 0x80000 |}
  | _ => unused_segment
  end.

(** The first of them alone. *)
Definition null_mapped_table (i : nat) : Segment :=
  match i with
  | 0%nat => {| srcStart := 0x1000; srcEnd := 0x2000; dstStart := 0 |}
  | _ => unused_segment
  end.

(** A table with one descriptor, and one with two overlapping descriptors,
    mapped to ordinary addresses. *)
Definition single_table (i : nat) : Segment :=
  match i with
  | 3%nat => {| srcStart := 0x1000; srcEnd := 0x2000; dstStart := 0x80000 |}
  | _ => unused_segment
  end.

Definition double_table (i : nat) : Segment :=
  match i with
  | 3%nat => {| srcStart := 0x1000; srcEnd := 0x2000; dstStart := 0x80000 |}
  | 7%nat => {| srcStart := 0x1800; srcEnd := 0x2800; dstStart := 0x90000 |}
  | _ => unused_segment
  end.

Definition quarter_step_at (x : float) : QuarterStep :=
  {| intended_pos := {| vx := x; vy := 0; vz := 0 |};
     result_pos := {| vx := x; vy := 1; vz := 0 |} |}.

(** A memory that holds zeros everywhere. *)
Definition zero_memory : Memory :=
  {| gSurfacesAllocated := fun _ => 0;
     sSurfacePool := fun _ => 0;
     load_Surface := fun _ =>
       {| vertex1 := (0, 0, 0); vertex2 := (0, 0, 0); vertex3 := (0, 0, 0);
          normal := vec3_zero |};
     gObjectPool := fun _ _ =>
       {| activeFlags := 0; oPos := vec3_zero; hitboxHeight := 0; hitboxRadius := 0 |};
     gMarioState := fun _ => 0;
     load_MarioState_pos := fun _ => vec3_zero;
     gQStepsInfo := fun _ => {| numSteps := 0; steps := fun _ => quarter_step_at 0 |};
     load_u32 := fun _ => 0;
     load_Vtx_ob := fun _ => (0, 0, 0) |}.

(** Three snapshots of one reference image, for frames 10, 11 and 12; the
    fine-step logs of their images hold 1, 2 and 5 entries. *)
Definition snapshot10 : GameState := {| frame := 10; base := 0x10000000; data := 0x20000000 |}.
Definition snapshot11 : GameState := {| frame := 11; base := 0x10000000; data := 0x30000000 |}.
Definition snapshot12 : GameState := {| frame := 12; base := 0x10000000; data := 0x40000000 |}.

Definition history_memory : Memory :=
  {| gSurfacesAllocated := gSurfacesAllocated zero_memory;
     sSurfacePool := sSurfacePool zero_memory;
     load_Surface := load_Surface zero_memory;
     gObjectPool := gObjectPool zero_memory;
     gMarioState := fun image => 0x10000100;
     load_MarioState_pos := fun m => {| vx := float_of_Z (m / 0x10000000); vy := 0; vz := 0 |};
     gQStepsInfo := fun image =>
       if image =? 0x20000000 then {| numSteps := 1; steps := fun _ => quarter_step_at 10 |}
       else if image =? 0x30000000 then {| numSteps := 2; steps := fun _ => quarter_step_at 11 |}
       else {| numSteps := 5; steps := fun i => quarter_step_at (float_of_Z (Z.of_nat i)) |};
     load_u32 := load_u32 zero_memory;
     load_Vtx_ob := load_Vtx_ob zero_memory |}.

(** The history of the three snapshots, viewed at frame 11. *)
Definition info_frame11 : RenderInfo :=
  {| info_camera := BIRDS_EYE vec3_zero 1000;
     current_state := snapshot11;
     path_states := [snapshot10; snapshot11; snapshot12] |}.

Fixpoint word_at (words : list (Z * Z)) (a : Z) : Z :=
  match words with
  | [] => 0
  | (k, w) :: rest => if a =? k then w else word_at rest a
  end.

(** Display lists in the image at [0x20000000] of a snapshot whose reference
    image is at [0x10000000]; operands point into the reference image.
    - [0x20001000]: load 3 vertices at slot 0, draw the triangle 0-1-2, end;
    - [0x20003000]: call the list above, draw the triangle again, end;
    - [0x20004000]: branch to the list above; the next command is a matrix load;
    - [0x20005000]: opcode [0x06] with an unknown low part;
    - [0x20006000]: a matrix load. *)
Definition display_words : list (Z * Z) :=
  [ (0x20001000, 0x04200000); (0x20001004, 0x10002000);
    (0x20001008, 0xBF000000); (0x2000100C, 0x00000A14);
    (0x20001010, 0xB8000000); (0x20001014, 0);
    (0x20003000, 0x06000000); (0x20003004, 0x10001000);
    (0x20003008, 0xBF000000); (0x2000300C, 0x00000A14);
    (0x20003010, 0xB8000000); (0x20003014, 0);
    (0x20004000, 0x06010000); (0x20004004, 0x10001000);
    (0x20004008, 0x01000000); (0x2000400C, 0);
    (0x20005000, 0x06020000); (0x20005004, 0x10001000);
    (0x20006000, 0x01234567); (0x20006004, 0xDEADBEEF) ].

Definition display_memory : Memory :=
  {| gSurfacesAllocated := gSurfacesAllocated zero_memory;
     sSurfacePool := sSurfacePool zero_memory;
     load_Surface := load_Surface zero_memory;
     gObjectPool := gObjectPool zero_memory;
     gMarioState := gMarioState zero_memory;
     load_MarioState_pos := load_MarioState_pos zero_memory;
     gQStepsInfo := gQStepsInfo zero_memory;
     load_u32 := word_at display_words;
     load_Vtx_ob := fun a =>
       let i := (a - 0x20002000) / 16 in (10 * i + 1, 10 * i + 2, 10 * i + 3) |}.

Definition display_state : GameState :=
  {| frame := 10; base := 0x10000000; data := 0x20000000 |}.

Definition gfx_initial : gfx :=
  {| loaded_vertices := loaded_vertices_initial; gl_calls := [] |}.

Definition triangle_calls : list gl_call :=
  [ glBegin_GL_LINE_LOOP; glVertex3f 1 2 3; glVertex3f 11 12 13; glVertex3f 21 22 23;
    glEnd ].

(** More display lists in the same image:
    - [0x20007000]: a branch to itself;
    - [0x20007100]: a call of itself;
    - [0x20008000]: a pipe sync, a texture image, an opcode the switch does not
      list, then the end. *)
Definition more_display_words : list (Z * Z) :=
  display_words ++
  [ (0x20007000, 0x06010000); (0x20007004, 0x10007000);
    (0x20007100, 0x06000000); (0x20007104, 0x10007100);
    (0x20008000, 0xE7000000); (0x20008004, 0);
    (0x20008008, 0xFD100000); (0x2000800C, 0x10002000);
    (0x20008010, 0x99123456); (0x20008014, 0x789ABCDE);
    (0x20008018, 0xB8000000); (0x2000801C, 0) ].

Definition more_display_memory : Memory :=
  {| gSurfacesAllocated := gSurfacesAllocated zero_memory;
     sSurfacePool := sSurfacePool zero_memory;
     load_Surface := load_Surface zero_memory;
     gObjectPool := gObjectPool zero_memory;
     gMarioState := gMarioState zero_memory;
     load_MarioState_pos := load_MarioState_pos zero_memory;
     gQStepsInfo := gQStepsInfo zero_memory;
     load_u32 := word_at more_display_words;
     load_Vtx_ob := load_Vtx_ob display_memory |}.

(** A surface pool of two entries, a floor and a wall, and an object pool
    whose slots 3 and 200 are active. *)
Definition pool_memory : Memory :=
  {| gSurfacesAllocated := fun _ => 2;
     sSurfacePool := fun _ => 0x10004000;
     load_Surface := fun a =>
       if a =? 0x20004000
       then {| vertex1 := (0, 0, 0); vertex2 := (100, 0, 0); vertex3 := (0, 0, 100);
               normal := {| vx := 0; vy := 1; vz := 0 |} |}
       else {| vertex1 := (0, 0, 0); vertex2 := (0, 100, 0); vertex3 := (0, 0, 100);
               normal := {| vx := 1; vy := 0; vz := 0 |} |};
     gObjectPool := fun _ i =>
       {| activeFlags := if (i =? 3)%nat || (i =? 200)%nat then 0x0101 else 0x0100;
          oPos := {| vx := float_of_Z (Z.of_nat i); vy := 0; vz := 0 |};
          hitboxHeight := 160; hitboxRadius := 37 |};
     gMarioState := gMarioState history_memory;
     load_MarioState_pos := load_MarioState_pos history_memory;
     gQStepsInfo := gQStepsInfo history_memory;
     load_u32 := fun a => if a =? 0x20000800 then 0x00040000 else 0x08000000;
     load_Vtx_ob := load_Vtx_ob zero_memory |}.

(** The fixed-point words of the identity matrix: integer parts first, then
    fractions. *)
Definition identity_words (i : nat) : Z :=
  if (i =? 0)%nat || (i =? 5)%nat || (i =? 10)%nat || (i =? 15)%nat then 1 else 0.

Definition mat4_zero : mat4 := replicate 4 (replicate 4 (S754_zero false)).

(** The list 2 of [gDisplayLists] holds two nodes: the first belongs to the
    character's object and draws the list at [0x20001000] under the identity
    transform, the second belongs to another object; the other lists are
    empty. *)
Definition character_graph : GraphMemory :=
  {| gDisplayLists_unk14 := fun _ i => if (i =? 2)%nat then 0x10009000 else 0;
     gMarioObject := fun _ => 0x10005000;
     node_object := fun node => if node =? 0x20009000 then 0x10005000 else 0x10006000;
     node_unk0 := fun _ => 0x1000A000;
     node_unk4 := fun _ => 0x10001000;
     node_unk8 := fun node => if node =? 0x20009000 then 0x10009100 else 0;
     load_u16 := fun a => identity_words (Z.to_nat ((a - 0x2000A000) / 2)) |}.

(** The same lists in a snapshot without a character object. *)
Definition no_character_graph : GraphMemory :=
  {| gDisplayLists_unk14 := gDisplayLists_unk14 character_graph;
     gMarioObject := fun _ => 0;
     node_object := node_object character_graph;
     node_unk0 := node_unk0 character_graph;
     node_unk4 := node_unk4 character_graph;
     node_unk8 := node_unk8 character_graph;
     load_u16 := load_u16 character_graph |}.

Definition overlay_initial : overlay :=
  {| overlay_vertices := loaded_vertices_initial; overlay_calls := [] |}.

(** * Address rebaser: properties *)

Section RebaserFacts.

Variable L : Layout.

Lemma ptr_modulus_pos : 0 < ptr_modulus L.
Proof. unfold ptr_modulus. apply Z.pow_pos_nonneg; lia. Qed.

Lemma ptr_range (a : Z) : 0 <= ptr L a < ptr_modulus L.
Proof. unfold ptr. apply Z.mod_pos_bound, ptr_modulus_pos. Qed.

Lemma ptr_small (a : Z) : 0 <= a < ptr_modulus L -> ptr L a = a.
Proof. intros H. unfold ptr. apply Z.mod_small, H. Qed.

(** Stepping a pointer back by one command and forth again. *)
Lemma ptr_back_and_forth (a k : Z) : 0 <= a < ptr_modulus L -> ptr L (ptr L (a - k) + k) = a.
Proof.
  intros H. unfold ptr. rewrite Zplus_mod_idemp_l.
  replace (a - k + k) with a by lia. apply Z.mod_small, H.
Qed.

Lemma from_base_range (st : GameState) (addr : Z) :
  0 <= addr < ptr_modulus L -> 0 <= from_base L st addr < ptr_modulus L.
Proof.
  intros H. unfold from_base.
  destruct (_ || _); [exact H | apply ptr_range].
Qed.

Lemma from_base_inside (st : GameState) (addr : Z) :
  valid_image L (base st) -> valid_image L (data st) ->
  base st <= addr < base st + sizeof_SM64State L ->
  from_base L st addr = addr - base st + data st.
Proof.
  intros (Hb0 & Hs & Hb) (Hd0 & _ & Hd) Hin. unfold from_base.
  rewrite (ptr_small (base st + _)) by lia.
  replace (addr <? base st) with false by (symmetry; apply Z.ltb_ge; lia).
  replace (addr >=? base st + sizeof_SM64State L) with false
    by (symmetry; rewrite Z.geb_leb; apply Z.leb_gt; lia).
  cbn. apply ptr_small. lia.
Qed.

Lemma from_base_outside (st : GameState) (addr : Z) :
  valid_image L (base st) ->
  ~ (base st <= addr < base st + sizeof_SM64State L) ->
  from_base L st addr = addr.
Proof.
  intros (Hb0 & Hs & Hb) Hout. unfold from_base.
  rewrite (ptr_small (base st + _)) by lia.
  destruct (addr <? base st) eqn:E1; [reflexivity|].
  destruct (addr >=? base st + sizeof_SM64State L) eqn:E2; [reflexivity|].
  apply Z.ltb_ge in E1. rewrite Z.geb_leb in E2. apply Z.leb_gt in E2. lia.
Qed.

(** C2.  For a reference image [ref] and a target image [tgt], a pointer [v]
    inside [[ref, ref + sizeof(image))] is rebased to [v - ref + tgt], so
    that [result - tgt = v - ref]; every other pointer is returned unchanged.
    [from_base] is a total function into addresses: it has no exit and no
    failure value. *)
Theorem from_base_rebases (fr ref tgt v : Z) :
  valid_image L ref -> valid_image L tgt ->
  let st := {| frame := fr; base := ref; data := tgt |} in
  (ref <= v < ref + sizeof_SM64State L ->
     from_base L st v = v - ref + tgt /\ from_base L st v - tgt = v - ref) /\
  (~ (ref <= v < ref + sizeof_SM64State L) -> from_base L st v = v).
Proof.
  intros Href Htgt st. split.
  - intros Hin. rewrite (from_base_inside st v) by assumption. cbn. split; lia.
  - intros Hout. apply (from_base_outside st v); assumption.
Qed.

(** ** Segment translation *)

Lemma matching_from_cons (table : nat -> Segment) (addr : Z) (i n : nat) :
  filter (fun k => segment_contains (table k) addr = true) (seq i (S n)) =
  if segment_contains (table i) addr
  then i :: filter (fun k => segment_contains (table k) addr = true) (seq (S i) n)
  else filter (fun k => segment_contains (table k) addr = true) (seq (S i) n).
Proof.
  cbn [seq]. destruct (segment_contains (table i) addr) eqn:E.
  - rewrite filter_cons_True; auto.
  - rewrite filter_cons_False; auto. rewrite E. discriminate.
Qed.

(** No descriptor left that contains [addr]: the loop returns its [result]. *)
Lemma segment_loop_no_match (table : nat -> Segment) (addr : Z) (n i : nat) (result : Z) :
  filter (fun k => segment_contains (table k) addr = true) (seq i n) = [] ->
  segment_loop L n table addr i result = Returned result.
Proof.
  revert i result. induction n as [|n IH]; intros i result H; [reflexivity|].
  rewrite matching_from_cons in H. cbn [segment_loop].
  destruct (segment_contains (table i) addr); [discriminate|]. apply IH, H.
Qed.

(** A descriptor contains [addr] while [result] is already set: the loop exits. *)
Lemma segment_loop_second_match (table : nat -> Segment) (addr : Z) (n i : nat) (result : Z)
    (k : nat) (rest : list nat) :
  filter (fun k => segment_contains (table k) addr = true) (seq i n) = k :: rest ->
  result <> NULL ->
  segment_loop L n table addr i result = Exited 1 two_segments_warning.
Proof.
  revert i result. induction n as [|n IH]; intros i result H Hres; [discriminate|].
  rewrite matching_from_cons in H. cbn [segment_loop].
  destruct (segment_contains (table i) addr).
  - apply Z.eqb_neq in Hres. rewrite Hres. reflexivity.
  - apply IH; assumption.
Qed.

(** The first descriptor that contains [addr] sets [result]. *)
Lemma segment_loop_first_match (table : nat -> Segment) (addr : Z) (n i : nat)
    (k : nat) (rest : list nat) :
  filter (fun k => segment_contains (table k) addr = true) (seq i n) = k :: rest ->
  exists n' : nat,
    filter (fun k => segment_contains (table k) addr = true) (seq (S k) n') = rest /\
    segment_loop L n table addr i NULL =
    segment_loop L n' table addr (S k) (segment_translate L (table k) addr).
Proof.
  revert i. induction n as [|n IH]; intros i H; [discriminate|].
  rewrite matching_from_cons in H. cbn [segment_loop].
  destruct (segment_contains (table i) addr).
  - injection H as <- <-. exists n. split; reflexivity.
  - apply IH, H.
Qed.

(** Where the design holds: no match, one match, and several matches, as
    long as the first translated address is not the null pointer. *)
Lemma segmented_to_virtual_no_match (table : nat -> Segment) (addr : Z) :
  matching_segments table addr = [] ->
  segmented_to_virtual L table addr = Returned addr.
Proof.
  intros H. unfold segmented_to_virtual.
  rewrite segment_loop_no_match by exact H. reflexivity.
Qed.

Lemma segmented_to_virtual_one_match (table : nat -> Segment) (addr : Z) (k : nat) :
  matching_segments table addr = [k] ->
  segment_translate L (table k) addr <> NULL ->
  segmented_to_virtual L table addr = Returned (segment_translate L (table k) addr).
Proof.
  intros H Hnz. unfold segmented_to_virtual.
  destruct (segment_loop_first_match table addr 32 0 k [] H) as (n' & Hrest & ->).
  rewrite segment_loop_no_match by exact Hrest.
  apply Z.eqb_neq in Hnz. rewrite Hnz. reflexivity.
Qed.

Lemma segmented_to_virtual_two_matches (table : nat -> Segment) (addr : Z)
    (k k' : nat) (rest : list nat) :
  matching_segments table addr = k :: k' :: rest ->
  segment_translate L (table k) addr <> NULL ->
  segmented_to_virtual L table addr = Exited 1 two_segments_warning.
Proof.
  intros H Hnz. unfold segmented_to_virtual.
  destruct (segment_loop_first_match table addr 32 0 k (k' :: rest) H) as (n' & Hrest & ->).
  rewrite (segment_loop_second_match table addr n' (S k) _ k' rest Hrest Hnz). reflexivity.
Qed.

End RebaserFacts.

Example segmented_to_virtual_single :
  segmented_to_virtual layout32 single_table 0x1804 = Returned 0x80804 /\
  segmented_to_virtual layout32 single_table 0x2000 = Returned 0x2000.
Proof. split; reflexivity. Qed.

Example segmented_to_virtual_double :
  segmented_to_virtual layout32 double_table 0x1804 = Exited 1 two_segments_warning /\
  segmented_to_virtual layout32 double_table 0x1004 = Returned 0x80004.
Proof. split; reflexivity. Qed.

(** C1.  The claim fails on the code where a translated address is the null
    pointer, which the loop also uses as its mark for "no descriptor found
    yet".  With [overlapping_table], two descriptors contain [0x1000] and the
    call returns [0x80000] instead of printing the warning and exiting; with
    [null_mapped_table], exactly one descriptor contains [0x1000], the
    translated address [v - lo + base] is 0, and the call returns [0x1000]. *)
Theorem segmented_to_virtual_null_translation :
  matching_segments overlapping_table 0x1000 = [0; 1]%nat /\
  segmented_to_virtual layout32 overlapping_table 0x1000 = Returned 0x80000 /\
  matching_segments null_mapped_table 0x1000 = [0%nat] /\
  0x1000 - srcStart (null_mapped_table 0) + dstStart (null_mapped_table 0) = 0 /\
  segmented_to_virtual layout32 null_mapped_table 0x1000 = Returned 0x1000.
Proof. repeat split; vm_compute; reflexivity. Qed.

Lemma from_base_rebases_witness :
  from_base layout32 {| frame := 7; base := 0x10000000; data := 0x20000000 |} 0x10000010
    = 0x20000010 /\
  from_base layout32 {| frame := 7; base := 0x10000000; data := 0x20000000 |} 0x30000000
    = 0x30000000.
Proof.
  assert (Href : valid_image layout32 0x10000000) by (vm_compute; intuition congruence).
  assert (Htgt : valid_image layout32 0x20000000) by (vm_compute; intuition congruence).
  destruct (from_base_rebases layout32 7 0x10000000 0x20000000 0x10000010 Href Htgt)
    as [Hin _].
  destruct (from_base_rebases layout32 7 0x10000000 0x20000000 0x30000000 Href Htgt)
    as [_ Hout].
  split.
  - apply Hin. vm_compute. intuition congruence.
  - apply Hout. vm_compute. intuition congruence.
Defined.

(** * Scene construction: properties *)

(** ** Surface classification *)

Lemma SFltb_magnitude (m : positive) (e : Z) (x : spec_float) :
  SFltb (S754_finite false m e) (SFabs x) =
  SFltb x (S754_finite true m e) || SFltb (S754_finite false m e) x.
Proof.
  destruct x as [[] | [] | | [] mx ex]; try reflexivity.
  unfold SFltb, SFabs, SFcompare.
  rewrite (Z.compare_antisym e ex).
  destruct (e ?= ex); cbn; try reflexivity.
  rewrite !Pos.compare_cont_spec. cbn.
  rewrite (Pos.compare_antisym m mx).
  destruct (m ?= mx)%positive; reflexivity.
Qed.

(** The two comparisons of the code are one comparison of the magnitude, for
    every value of [normal.x], the zeros, the infinities and NaN included. *)
Lemma ltb_magnitude (x : float) :
  (0.707 <? abs x)%float = (x <? -0.707)%float || (0.707 <? x)%float.
Proof.
  rewrite !ltb_spec, abs_spec.
  assert (H : exists m e, Prim2SF 0.707%float = S754_finite false m e /\
                          Prim2SF (-0.707)%float = S754_finite true m e)
    by (eexists; eexists; split; vm_compute; reflexivity).
  destruct H as (m & e & -> & ->). apply SFltb_magnitude.
Qed.

(** C6.  [render] classifies a surface by its normal with strict tests:
    [y > 0.01] is FLOOR, else [y < -0.01] is CEILING, else [|x| > 0.707] is
    WALL_X_PROJ, else WALL_Z_PROJ; the listed normals classify as stated, and
    a normal with [y] equal to 0.01 (as a [double], or as the nearest [f32])
    and [x = 0] is not a FLOOR. *)
Theorem classify_surface_thresholds :
  (forall n : vec3, classify_surface n = classify_by_magnitude n) /\
  classify_surface {| vx := 0; vy := 1; vz := 0 |} = FLOOR /\
  classify_surface {| vx := 0; vy := -1; vz := 0 |} = CEILING /\
  classify_surface {| vx := 1; vy := 0; vz := 0 |} = WALL_X_PROJ /\
  classify_surface {| vx := 0; vy := 0; vz := 1 |} = WALL_Z_PROJ /\
  classify_surface {| vx := 0.005; vy := 0.999; vz := 0 |} = FLOOR /\
  (forall x z : float, classify_surface {| vx := x; vy := 0.01; vz := z |} <> FLOOR) /\
  classify_surface {| vx := 0; vy := 0.01; vz := 0 |} = WALL_Z_PROJ /\
  classify_surface {| vx := 0; vy := f32_0_01; vz := 0 |} = WALL_Z_PROJ.
Proof.
  split; [|repeat split; try reflexivity].
  - intros n. unfold classify_surface, classify_by_magnitude.
    rewrite ltb_magnitude. reflexivity.
  - intros x z. unfold classify_surface. cbn [vy vx].
    change (0.01 <? 0.01)%float with false.
    change (0.01 <? -0.01)%float with false. cbn.
    destruct (_ || _); discriminate.
Qed.

(** Every surface of the scene carries the class of its own normal. *)
Lemma scene_surfaces_classified (L : Layout) (mem : Memory) (st : GameState) (s : Surface) :
  s ∈ scene_surfaces L mem st -> surface_type s = classify_surface (surface_normal s).
Proof.
  unfold scene_surfaces. intros H. apply list_elem_of_fmap in H as (i & -> & _). reflexivity.
Qed.

(** ** [current_index] and the path of the tracked character *)

Section SceneFacts.

Variable L : Layout.
Variable mem : Memory.

Lemma find_distance_le (history : list GameState) (current : GameState) :
  (find_distance history current <= length history)%nat.
Proof.
  induction history as [|s rest IH]; cbn; [lia|].
  destruct (GameState_eqb s current); lia.
Qed.

Lemma find_distance_first (history : list GameState) (current : GameState)
    (i : nat) (s : GameState) :
  history !! i = Some s -> frame s = frame current ->
  (forall j s', (j < i)%nat -> history !! j = Some s' -> frame s' <> frame current) ->
  find_distance history current = i.
Proof.
  revert i. induction history as [|h rest IH]; intros i Hi Hs Hbefore; [discriminate|].
  cbn [find_distance]. unfold GameState_eqb. destruct i as [|i].
  - injection Hi as ->. apply Z.eqb_eq in Hs. rewrite Hs. reflexivity.
  - assert (Hh : frame h <> frame current) by (apply (Hbefore 0%nat h); [lia|reflexivity]).
    apply Z.eqb_neq in Hh. rewrite Hh. f_equal. apply IH; [exact Hi|exact Hs|].
    intros j s' Hj Hlook. apply (Hbefore (S j) s'); [lia|exact Hlook].
Qed.

Lemma find_distance_found (history : list GameState) (current : GameState) :
  (find_distance history current < length history)%nat ->
  exists s, history !! find_distance history current = Some s /\
            frame s = frame current /\
            forall j s', (j < find_distance history current)%nat ->
                         history !! j = Some s' -> frame s' <> frame current.
Proof.
  induction history as [|h rest IH]; cbn [find_distance length]; [lia|].
  unfold GameState_eqb. destruct (frame h =? frame current) eqn:E; intros Hlt.
  - exists h. apply Z.eqb_eq in E. repeat split; [exact E|]. intros j s' Hj. lia.
  - destruct IH as (s & Hlook & Hs & Hbefore); [lia|].
    exists s. repeat split; [exact Hlook|exact Hs|].
    intros [|j] s' Hj Hlook'.
    + injection Hlook' as <-. apply Z.eqb_neq, E.
    + apply (Hbefore j s'); [lia|exact Hlook'].
Qed.

Lemma find_distance_absent (history : list GameState) (current : GameState) :
  find_distance history current = length history <->
  (forall s, s ∈ history -> frame s <> frame current).
Proof.
  induction history as [|h rest IH]; cbn [find_distance length].
  - split; [|reflexivity]. intros _ s Hs. inversion Hs.
  - unfold GameState_eqb. destruct (frame h =? frame current) eqn:E; split.
    + discriminate.
    + intros H. exfalso. apply (H h); [left|apply Z.eqb_eq, E].
    + intros H s Hs. injection H as H. apply elem_of_cons in Hs as [->|Hs].
      * apply Z.eqb_neq, E.
      * apply IH; assumption.
    + intros H. f_equal. apply IH. intros s Hs. apply H. right. exact Hs.
Qed.

Lemma copy_condition_spec (current_index : nat) (mario_path : list ObjectPathNode) :
  copy_condition current_index mario_path = true <-> length mario_path = S current_index.
Proof.
  unfold copy_condition. destruct mario_path as [|n rest]; cbn [empty negb andb length].
  - split; [discriminate|lia].
  - rewrite Nat.eqb_eq. lia.
Qed.

Lemma build_mario_path_snoc (current_index : nat) (history : list GameState)
    (path_st : GameState) :
  build_mario_path L mem current_index (history ++ [path_st]) =
  mario_path_step L mem current_index (build_mario_path L mem current_index history) path_st.
Proof. unfold build_mario_path. rewrite fold_left_app. reflexivity. Qed.

(** The path and the output of the loop, node by node. *)
Lemma build_mario_path_spec (current_index : nat) (history : list GameState) :
  length (build_mario_path L mem current_index history).1 = length history /\
  (forall i : nat,
     (build_mario_path L mem current_index history).1 !! i =
     (fun s => mario_node L mem s (if decide (i = current_index)
                             then from_option (qsteps_log mem) [] (history !! S current_index)
                             else []))
       <$> history !! i) /\
  (build_mario_path L mem current_index history).2 =
  from_option (qsteps_diagnostic mem) [] (history !! S current_index).
Proof.
  induction history as [|path_st history IH] using rev_ind.
  - repeat split.
  - rewrite build_mario_path_snoc.
    destruct (build_mario_path L mem current_index history) as [mario_path out].
    cbn [fst snd] in IH. destruct IH as (Hlen & Hlook & Hout).
    unfold mario_path_step.
    destruct (copy_condition current_index mario_path) eqn:Hcond; cbn [fst snd].
    + apply copy_condition_spec in Hcond.
      assert (Hnext : (history ++ [path_st]) !! S current_index = Some path_st).
      { rewrite lookup_app_r by lia.
        replace (S current_index - length history)%nat with 0%nat by lia. reflexivity. }
      assert (Hnone : history !! S current_index = None)
        by (apply lookup_ge_None_2; lia).
      rewrite Hnext. rewrite Hnone in Hlook, Hout. cbn [from_option] in *.
      unfold back_push_all. repeat split.
      * rewrite length_app, length_alter, length_app. cbn. lia.
      * intros i. destruct (decide (i < length history)%nat) as [Hi|Hi].
        -- rewrite !lookup_app_l by (rewrite ?length_alter; lia).
           rewrite list_lookup_alter.
           replace (length mario_path - 1)%nat with current_index by lia.
           destruct (decide (current_index = i)) as [<-|Hne].
           ++ rewrite Hlook. destruct (history !! current_index); [|reflexivity].
              cbn. unfold mario_node, qsteps_log. cbn.
              repeat case_decide; [reflexivity|congruence].
           ++ rewrite Hlook. destruct (history !! i); [|reflexivity].
              cbn. repeat case_decide; congruence.
        -- rewrite !lookup_app_r by (rewrite ?length_alter; lia).
           rewrite length_alter, Hlen.
           destruct (i - length history)%nat as [|k] eqn:Hk; [|reflexivity].
           cbn. case_decide; [lia|reflexivity].
      * rewrite Hout. unfold qsteps_diagnostic.
        destruct (4 <? numSteps (gQStepsInfo mem (data path_st))); reflexivity.
    + assert (Hne : length mario_path <> S current_index).
      { intros H. apply copy_condition_spec in H. congruence. }
      assert (Hnext : (history ++ [path_st]) !! S current_index = history !! S current_index).
      { destruct (decide (S current_index < length history)%nat).
        - apply lookup_app_l. lia.
        - rewrite !lookup_ge_None_2; [reflexivity|lia|rewrite length_app; cbn; lia]. }
      rewrite Hnext. repeat split.
      * rewrite !length_app. cbn. lia.
      * intros i. destruct (decide (i < length history)%nat) as [Hi|Hi].
        -- rewrite !lookup_app_l by lia. apply Hlook.
        -- rewrite !lookup_app_r by lia. rewrite Hlen.
           destruct (i - length history)%nat as [|k] eqn:Hk; [|reflexivity].
           cbn. destruct (decide (i = current_index)) as [->|]; [|reflexivity].
           rewrite lookup_ge_None_2 by lia. reflexivity.
      * exact Hout.
Qed.

End SceneFacts.

Section SceneClaims.

Variable L : Layout.
Variable mem : Memory.

Lemma build_scene_object_paths (info : RenderInfo) :
  object_paths (build_scene L mem info).1 =
    [ {| nodes := (build_mario_path L mem
                     (find_distance (path_states info) (current_state info))
                     (path_states info)).1;
         root_index := find_distance (path_states info) (current_state info) |} ] /\
  (build_scene L mem info).2 =
    (build_mario_path L mem
       (find_distance (path_states info) (current_state info)) (path_states info)).2.
Proof.
  unfold build_scene.
  destruct (build_mario_path L mem _ (path_states info)) as [mario_path out].
  split; reflexivity.
Qed.

(** C7.  The scene has one object path, and its [current_index] is the
    position in the history of the first snapshot whose frame id is that of
    the current snapshot (1 for a history of three snapshots of which the
    second, and not the first, has the current frame id); when no snapshot of
    the history has that frame id, it is the length of the history. *)
Theorem current_index_is_first_match (info : RenderInfo) :
  exists path : ObjectPath,
    object_paths (build_scene L mem info).1 = [path] /\
    (root_index path <= length (path_states info))%nat /\
    ((root_index path < length (path_states info))%nat ->
     exists s, path_states info !! root_index path = Some s /\
               frame s = frame (current_state info) /\
               forall j s', (j < root_index path)%nat -> path_states info !! j = Some s' ->
                            frame s' <> frame (current_state info)) /\
    (forall (i : nat) (s : GameState),
       path_states info !! i = Some s ->
       frame s = frame (current_state info) ->
       (forall j s', (j < i)%nat -> path_states info !! j = Some s' ->
                     frame s' <> frame (current_state info)) ->
       root_index path = i) /\
    ((forall s, s ∈ path_states info -> frame s <> frame (current_state info)) <->
     root_index path = length (path_states info)) /\
    (forall s0 s1 s2 : GameState,
       path_states info = [s0; s1; s2] ->
       frame s1 = frame (current_state info) ->
       frame s0 <> frame (current_state info) ->
       root_index path = 1%nat).
Proof.
  destruct (build_scene_object_paths info) as [Hpaths _].
  eexists. split; [exact Hpaths|]. cbn [root_index].
  split; [apply find_distance_le|].
  split; [apply find_distance_found|].
  split; [intros i s; apply find_distance_first|].
  split; [symmetry; apply find_distance_absent|].
  intros s0 s1 s2 -> H1 H0.
  apply (find_distance_first _ _ 1%nat s1); [reflexivity|exact H1|].
  intros [|j] s' Hj Hlook; [|lia]. injection Hlook as <-. exact H0.
Qed.

(** Only the node at [current_index] can hold quarter steps. *)
Lemma quarter_steps_empty_elsewhere (info : RenderInfo) :
  exists path : ObjectPath,
    object_paths (build_scene L mem info).1 = [path] /\
    forall (i : nat) (node : ObjectPathNode),
      i <> find_distance (path_states info) (current_state info) ->
      nodes path !! i = Some node -> quarter_steps node = [].
Proof.
  destruct (build_scene_object_paths info) as [Hpaths _].
  destruct (build_mario_path_spec L mem
              (find_distance (path_states info) (current_state info))
              (path_states info)) as (_ & Hlook & _).
  eexists. split; [exact Hpaths|]. cbn [nodes].
  intros i node Hne Hi. rewrite Hlook in Hi.
  destruct (path_states info !! i); [|discriminate].
  cbn in Hi. injection Hi as <-. cbn. rewrite decide_False by exact Hne. reflexivity.
Qed.

(** C5, amended.  The copy is made when the node after the current one is
    appended (the path then holds [current_index + 1] nodes): the fine-step
    log of the snapshot being appended, the one that follows the current
    frame in the history, goes in log order into the quarter steps of the
    node at [current_index]; a log of more than 4 entries is copied in full
    and only has its length printed; no other node receives quarter steps,
    and without a snapshot after the current one no node does. *)
Theorem quarter_steps_of_next_snapshot (info : RenderInfo) :
  let history := path_states info in
  let current_index := find_distance history (current_state info) in
  exists path : ObjectPath,
    object_paths (build_scene L mem info).1 = [path] /\
    root_index path = current_index /\
    length (nodes path) = length history /\
    (forall next : GameState,
       history !! S current_index = Some next ->
       (exists node, nodes path !! current_index = Some node /\
                     quarter_steps node = qsteps_log mem next) /\
       length (qsteps_log mem next) = Z.to_nat (numSteps (gQStepsInfo mem (data next))) /\
       (build_scene L mem info).2 = qsteps_diagnostic mem next) /\
    (history !! S current_index = None ->
       (build_scene L mem info).2 = [] /\
       forall node, node ∈ nodes path -> quarter_steps node = []) /\
    (forall (i : nat) (node : ObjectPathNode),
       i <> current_index -> nodes path !! i = Some node -> quarter_steps node = []).
Proof.
  intros history current_index.
  destruct (build_scene_object_paths info) as [Hpaths Hout].
  destruct (build_mario_path_spec L mem current_index history) as (Hlen & Hlook & Hprint).
  fold history current_index in Hpaths, Hout.
  eexists. split; [exact Hpaths|]. cbn [root_index nodes].
  split; [reflexivity|]. split; [exact Hlen|]. repeat split.
  - assert (Hcur : is_Some (history !! current_index)).
    { apply lookup_lt_is_Some. apply lookup_lt_Some in H. lia. }
    destruct Hcur as [s Hs]. exists (mario_node L mem s (qsteps_log mem next)).
    rewrite Hlook, Hs, H. cbn. rewrite decide_True by reflexivity. split; reflexivity.
  - unfold qsteps_log. rewrite length_map, length_seq. reflexivity.
  - rewrite Hout, Hprint, H. reflexivity.
  - rewrite Hout, Hprint, H. reflexivity.
  - intros node Hin. apply list_elem_of_lookup in Hin as [i Hi].
    rewrite Hlook, H in Hi. destruct (history !! i); [|discriminate].
    cbn in Hi. injection Hi as <-. cbn. case_decide; reflexivity.
  - intros i node Hne Hi. rewrite Hlook in Hi.
    destruct (history !! i); [|discriminate].
    cbn in Hi. injection Hi as <-. cbn. rewrite decide_False by exact Hne. reflexivity.
Qed.

(** C10.  The path grows by one node per iteration, so the copy condition
    holds in at most one iteration of the loop (the one that finds
    [current_index + 1] nodes in the path), and in the scene at most one node
    of the path has quarter steps: any two nodes with quarter steps are the
    same node. *)
Theorem at_most_one_node_with_quarter_steps (info : RenderInfo) :
  let history := path_states info in
  let current_index := find_distance history (current_state info) in
  (forall (before : list GameState) (path_st : GameState),
     length (build_mario_path L mem current_index (before ++ [path_st])).1 =
     S (length (build_mario_path L mem current_index before).1)) /\
  (forall before1 after1 before2 after2 : list GameState,
     history = before1 ++ after1 -> history = before2 ++ after2 ->
     copy_condition current_index (build_mario_path L mem current_index before1).1 = true ->
     copy_condition current_index (build_mario_path L mem current_index before2).1 = true ->
     before1 = before2) /\
  exists path : ObjectPath,
    object_paths (build_scene L mem info).1 = [path] /\
    forall (i j : nat) (ni nj : ObjectPathNode),
      nodes path !! i = Some ni -> nodes path !! j = Some nj ->
      quarter_steps ni <> [] -> quarter_steps nj <> [] -> i = j.
Proof.
  intros history current_index. split; [|split].
  - intros before path_st.
    destruct (build_mario_path_spec L mem current_index (before ++ [path_st])) as (-> & _).
    destruct (build_mario_path_spec L mem current_index before) as (-> & _).
    rewrite length_app. cbn. lia.
  - intros before1 after1 before2 after2 H1 H2 C1 C2.
    apply copy_condition_spec in C1, C2.
    destruct (build_mario_path_spec L mem current_index before1) as (Hlen1 & _).
    destruct (build_mario_path_spec L mem current_index before2) as (Hlen2 & _).
    rewrite H1 in H2. apply app_inj_1 in H2; [apply H2|congruence].
  - destruct (quarter_steps_empty_elsewhere info) as (path & Hpaths & Hempty).
    exists path. split; [exact Hpaths|].
    intros i j ni nj Hi Hj Hni Hnj.
    destruct (decide (i = current_index)) as [->|Hne];
      [|exfalso; apply Hni; apply (Hempty i ni Hne Hi)].
    destruct (decide (j = current_index)) as [->|Hne];
      [reflexivity|exfalso; apply Hnj; apply (Hempty j nj Hne Hj)].
Qed.

End SceneClaims.

Example build_scene_frame11 :
  object_paths (build_scene layout32 history_memory info_frame11).1 =
    [ {| nodes :=
           [ {| node_pos := {| vx := 2; vy := 0; vz := 0 |}; quarter_steps := [] |};
             {| node_pos := {| vx := 3; vy := 0; vz := 0 |};
                quarter_steps := map quarter_step_at [0; 1; 2; 3; 4]%float |};
             {| node_pos := {| vx := 4; vy := 0; vz := 0 |}; quarter_steps := [] |} ];
         root_index := 1 |} ] /\
  (build_scene layout32 history_memory info_frame11).2 = [5].
Proof. split; vm_compute; reflexivity. Qed.

Lemma current_index_is_first_match_witness :
  exists path : ObjectPath,
    object_paths (build_scene layout32 history_memory info_frame11).1 = [path] /\
    root_index path = 1%nat.
Proof.
  destruct (current_index_is_first_match layout32 history_memory info_frame11)
    as (path & Hpaths & _ & _ & _ & _ & Hthree).
  exists path. split; [exact Hpaths|].
  apply (Hthree snapshot10 snapshot11 snapshot12); [reflexivity|reflexivity|].
  vm_compute. congruence.
Defined.

(** C5, as stated, fails on the code: at frame 11 of the three-snapshot
    history the node before the current one (node 0) holds no quarter steps,
    while the log of the snapshot of frame 10 has one entry. *)
Lemma claimed_quarter_steps_fails :
  ~ claimed_quarter_steps layout32 history_memory info_frame11.
Proof.
  intros Hclaim.
  destruct build_scene_frame11 as [Hpaths _].
  destruct (Hclaim _ 0%nat snapshot10 Hpaths) as [(node & Hnode & Hsteps) _].
  - vm_compute. lia.
  - reflexivity.
  - reflexivity.
  - cbn in Hnode. injection Hnode as <-. vm_compute in Hsteps. discriminate.
Qed.

(** In that scene no node holds the log of its own snapshot or of an earlier
    one: the quarter steps of node 1 are the five entries of the snapshot of
    frame 12. *)
Example quarter_steps_not_from_an_earlier_snapshot :
  forall (path : ObjectPath) (i j : nat) (node : ObjectPathNode) (s : GameState),
    object_paths (build_scene layout32 history_memory info_frame11).1 = [path] ->
    nodes path !! i = Some node -> path_states info_frame11 !! j = Some s ->
    (j <= i)%nat -> quarter_steps node <> qsteps_log history_memory s.
Proof.
  intros path i j node s Hpaths Hi Hj Hle.
  destruct build_scene_frame11 as [Hscene _].
  rewrite Hscene in Hpaths. injection Hpaths as <-.
  destruct i as [|[|[|i]]]; try discriminate; injection Hi as <-;
    destruct j as [|[|[|j]]]; try discriminate; try lia; injection Hj as <-;
    vm_compute; discriminate.
Qed.

Lemma quarter_steps_of_next_snapshot_witness :
  exists path : ObjectPath,
    object_paths (build_scene layout32 history_memory info_frame11).1 = [path] /\
    (exists node, nodes path !! 1%nat = Some node /\
                  quarter_steps node = qsteps_log history_memory snapshot12 /\
                  length (quarter_steps node) = 5%nat) /\
    (build_scene layout32 history_memory info_frame11).2 = [5] /\
    (forall node, nodes path !! 0%nat = Some node -> quarter_steps node = []).
Proof.
  destruct (quarter_steps_of_next_snapshot layout32 history_memory info_frame11)
    as (path & Hpaths & _ & _ & Hnext & _ & Hothers).
  destruct (Hnext snapshot12 eq_refl) as ((node & Hnode & Hsteps) & Hlen & Hout).
  exists path. split; [exact Hpaths|]. split; [|split].
  - exists node. split; [exact Hnode|]. split; [exact Hsteps|].
    rewrite Hsteps. exact Hlen.
  - exact Hout.
  - intros node0 H0. apply (Hothers 0%nat node0); [discriminate|exact H0].
Defined.

Lemma at_most_one_node_with_quarter_steps_witness :
  exists path : ObjectPath,
    object_paths (build_scene layout32 history_memory info_frame11).1 = [path] /\
    forall (j : nat) (nj : ObjectPathNode),
      nodes path !! j = Some nj -> quarter_steps nj <> [] -> j = 1%nat.
Proof.
  destruct (at_most_one_node_with_quarter_steps layout32 history_memory info_frame11)
    as (_ & _ & path & Hpaths & Hsame).
  exists path. split; [exact Hpaths|].
  intros j nj Hj Hnj.
  destruct build_scene_frame11 as [Hscene _].
  rewrite Hscene in Hpaths. injection Hpaths as <-.
  symmetry. eapply (Hsame 1%nat j); [reflexivity|exact Hj|discriminate|exact Hnj].
Defined.

(** * Display-list interpreter: properties *)

Section InterpreterFacts.

Variable L : Layout.
Variable mem : Memory.

(** One unit of fuel: one command. *)
Lemma interpret_display_list_step (fuel : nat) (st : GameState) (dl : Z) (indent : string)
    (g : gfx) :
  interpret_display_list L mem (S fuel) st dl indent g =
  if opcode mem dl =? 0x01 then Some (Exited 1 ("gSPMatrix" ++ newline)%string)
  else if opcode mem dl =? 0x04 then
    interpret_display_list L mem fuel st (ptr L (dl + 8)) indent
      {| loaded_vertices := gSPVertex L mem st (word0 mem dl) (word1 L mem dl) (loaded_vertices g);
         gl_calls := gl_calls g |}
  else if opcode mem dl =? 0x06 then
    if word0 mem dl =? 0x06000000 then
      match interpret_display_list L mem fuel st (list_target L mem st dl) (indent ++ "  ")%string g
      with
      | Some (Returned g') => interpret_display_list L mem fuel st (ptr L (dl + 8)) indent g'
      | stopped => stopped
      end
    else if word0 mem dl =? 0x06010000 then
      interpret_display_list L mem fuel st (ptr L (ptr L (list_target L mem st dl - 8) + 8)) indent g
    else Some (Exited 1 ("gSPDisplayList: 0x" ++ hex8 (word0 mem dl) ++ newline)%string)
  else if opcode mem dl =? 0xB8 then Some (Returned g)
  else if opcode mem dl =? 0xBF then
    interpret_display_list L mem fuel st (ptr L (dl + 8)) indent
      {| loaded_vertices := gSP1Triangle_reads (word1 L mem dl) (loaded_vertices g);
         gl_calls := gl_calls g ++ gSP1Triangle (word1 L mem dl) (loaded_vertices g) |}
  else interpret_display_list L mem fuel st (ptr L (dl + 8)) indent g.
Proof.
  cbn [interpret_display_list]. fold (word0 mem dl) (word1 L mem dl). fold (opcode mem dl).
  fold (list_target L mem st dl).
  destruct (existsb (Z.eqb (opcode mem dl)) ignored_opcodes); reflexivity.
Qed.

(** More fuel does not change the result of a run that ended. *)
Lemma interpret_display_list_fuel (fuel fuel' : nat) (st : GameState) (dl : Z)
    (indent : string) (g : gfx) (r : outcome gfx) :
  interpret_display_list L mem fuel st dl indent g = Some r ->
  (fuel <= fuel')%nat ->
  interpret_display_list L mem fuel' st dl indent g = Some r.
Proof.
  revert fuel' dl indent g r.
  induction fuel as [|fuel IH]; intros fuel' dl indent g r H Hle; [discriminate|].
  destruct fuel' as [|fuel']; [lia|].
  assert (Hle' : (fuel <= fuel')%nat) by lia.
  rewrite interpret_display_list_step in H |- *.
  destruct (opcode mem dl =? 0x01); [exact H|].
  destruct (opcode mem dl =? 0x04); [apply (IH fuel' _ _ _ _ H Hle')|].
  destruct (opcode mem dl =? 0x06).
  - destruct (word0 mem dl =? 0x06000000).
    + destruct (interpret_display_list L mem fuel st (list_target L mem st dl) _ g)
        as [[g'|status err]|] eqn:E; [| |discriminate].
      * rewrite (IH fuel' _ _ _ _ E Hle'). apply (IH fuel' _ _ _ _ H Hle').
      * rewrite (IH fuel' _ _ _ _ E Hle'). exact H.
    + destruct (word0 mem dl =? 0x06010000); [apply (IH fuel' _ _ _ _ H Hle')|exact H].
  - destruct (opcode mem dl =? 0xB8); [exact H|].
    destruct (opcode mem dl =? 0xBF); apply (IH fuel' _ _ _ _ H Hle').
Qed.

Lemma runs_to_unique (st : GameState) (dl : Z) (indent : string) (g : gfx)
    (r r' : outcome gfx) :
  runs_to L mem st dl indent g r -> runs_to L mem st dl indent g r' -> r = r'.
Proof.
  intros [f Hf] [f' Hf'].
  apply (interpret_display_list_fuel f (max f f')) in Hf; [|lia].
  apply (interpret_display_list_fuel f' (max f f')) in Hf'; [|lia].
  congruence.
Qed.

(** C9.  A command whose opcode-word high byte is [0x01] makes the
    interpreter print [gSPMatrix] and exit with status 1, whatever the rest
    of the opcode word, the operand word and the state of the run are. *)
Theorem gSPMatrix_exits (fuel : nat) (st : GameState) (dl : Z) (indent : string) (g : gfx) :
  u8 (Z.shiftr (u32 (load_u32 mem dl)) 24) = 0x01 ->
  interpret_display_list L mem (S fuel) st dl indent g =
    Some (Exited 1 ("gSPMatrix" ++ newline)%string) /\
  runs_to L mem st dl indent g (Exited 1 ("gSPMatrix" ++ newline)%string).
Proof.
  intros Hop.
  assert (Hstep : forall f, interpret_display_list L mem (S f) st dl indent g =
                            Some (Exited 1 ("gSPMatrix" ++ newline)%string)).
  { intros f. rewrite interpret_display_list_step. unfold opcode, word0.
    rewrite Hop. reflexivity. }
  split; [apply Hstep|]. exists 1%nat. apply Hstep.
Qed.

(** C4.  At a command with opcode [0x06]: the word [0x06000000] runs the
    rebased target list to its end and then goes on with the command after
    the [0x06] command, in the state the nested run left (an exit inside the
    nested run ends the whole run); the word [0x06010000] moves the cursor to
    the target less one command, so that after the advance of the loop the
    run is the run of the target list, and the commands after the [0x06]
    command are not returned to; any other word with that opcode makes the
    interpreter print the word and exit with status 1. *)
Theorem gSPDisplayList_call_branch_exit (st : GameState) (dl : Z) (indent : string) (g : gfx) :
  (word0 mem dl = 0x06000000 ->
   forall r : outcome gfx,
     runs_to L mem st dl indent g r <->
     (exists g', runs_to L mem st (list_target L mem st dl) (indent ++ "  ")%string g (Returned g') /\
                 runs_to L mem st (ptr L (dl + 8)) indent g' r) \/
     (exists status err,
        r = Exited status err /\
        runs_to L mem st (list_target L mem st dl) (indent ++ "  ")%string g (Exited status err))) /\
  (word0 mem dl = 0x06010000 ->
   ptr L (ptr L (list_target L mem st dl - 8) + 8) = list_target L mem st dl /\
   (forall fuel, interpret_display_list L mem (S fuel) st dl indent g =
                 interpret_display_list L mem fuel st (list_target L mem st dl) indent g) /\
   (forall r, runs_to L mem st dl indent g r <->
              runs_to L mem st (list_target L mem st dl) indent g r)) /\
  (opcode mem dl = 0x06 -> word0 mem dl <> 0x06000000 -> word0 mem dl <> 0x06010000 ->
   forall fuel, interpret_display_list L mem (S fuel) st dl indent g =
                Some (Exited 1 ("gSPDisplayList: 0x" ++ hex8 (word0 mem dl) ++ newline)%string)).
Proof.
  assert (Hop : forall w, word0 mem dl = w -> opcode mem dl = u8 (Z.shiftr w 24))
    by (intros w <-; reflexivity).
  split; [|split].
  - intros Hw r. split.
    + intros [[|fuel] H]; [discriminate|].
      rewrite interpret_display_list_step, (Hop _ Hw), Hw in H. cbn in H.
      destruct (interpret_display_list L mem fuel st (list_target L mem st dl) _ g)
        as [[g'|status err]|] eqn:E; [| |discriminate].
      * left. exists g'. split; exists fuel; assumption.
      * right. exists status, err. injection H as <-. split; [reflexivity|].
        exists fuel. exact E.
    + intros [(g' & [f1 H1] & [f2 H2]) | (status & err & -> & [f1 H1])].
      * exists (S (max f1 f2)).
        rewrite interpret_display_list_step, (Hop _ Hw), Hw. cbn.
        rewrite (interpret_display_list_fuel f1 (max f1 f2) _ _ _ _ _ H1) by lia.
        apply (interpret_display_list_fuel f2 (max f1 f2) _ _ _ _ _ H2). lia.
      * exists (S f1). rewrite interpret_display_list_step, (Hop _ Hw), Hw. cbn.
        rewrite H1. reflexivity.
  - intros Hw.
    assert (Hback : ptr L (ptr L (list_target L mem st dl - 8) + 8) = list_target L mem st dl).
    { apply ptr_back_and_forth. apply from_base_range, ptr_range. }
    assert (Hstep : forall fuel, interpret_display_list L mem (S fuel) st dl indent g =
                      interpret_display_list L mem fuel st (list_target L mem st dl) indent g).
    { intros fuel. rewrite interpret_display_list_step, (Hop _ Hw), Hw. cbn.
      rewrite Hback. reflexivity. }
    split; [exact Hback|]. split; [exact Hstep|].
    intros r. split.
    + intros [[|fuel] H]; [discriminate|]. rewrite Hstep in H. exists fuel. exact H.
    + intros [fuel H]. exists (S fuel). rewrite Hstep. exact H.
  - intros Hcmd Hcall Hbranch fuel.
    rewrite interpret_display_list_step, Hcmd. cbn.
    apply Z.eqb_neq in Hcall, Hbranch. rewrite Hcall, Hbranch. reflexivity.
Qed.

End InterpreterFacts.

(** ** The vertex cache *)

Section VertexCacheFacts.

Variable L : Layout.
Variable mem : Memory.

Lemma land_ones_range (x : Z) (k : Z) : 0 <= k -> 0 <= Z.land x (Z.ones k) < 2 ^ k.
Proof.
  intros Hk. rewrite Z.land_ones by exact Hk. apply Z.mod_pos_bound. lia.
Qed.

Lemma gSPVertex_v0_range (w0 : Z) : 0 <= gSPVertex_v0 w0 <= 15.
Proof.
  unfold gSPVertex_v0. pose proof (land_ones_range (Z.shiftr w0 16) 4).
  change (Z.ones 4) with 0xF in H. change (2 ^ 4) with 16 in H. lia.
Qed.

Lemma gSPVertex_n_range (w0 : Z) : 1 <= gSPVertex_n w0 <= 16.
Proof.
  unfold gSPVertex_n, u32. pose proof (land_ones_range (Z.shiftr w0 20) 4).
  change (Z.ones 4) with 0xF in H. change (2 ^ 4) with 16 in H.
  rewrite Z.mod_small; lia.
Qed.

Lemma gSPVertex_slot_eq (w0 : Z) (i : nat) :
  (i <= 16)%nat -> gSPVertex_slot w0 i = (Z.to_nat (gSPVertex_v0 w0) + i)%nat.
Proof.
  intros Hi. unfold gSPVertex_slot, u32. pose proof (gSPVertex_v0_range w0).
  rewrite Z.mod_small; lia.
Qed.

Lemma gSP1Triangle_index_range (w1 shift : Z) : (gSP1Triangle_index w1 shift <= 25)%nat.
Proof.
  unfold gSP1Triangle_index. pose proof (land_ones_range (Z.shiftr w1 shift) 8).
  change (Z.ones 8) with 0xFF in H. change (2 ^ 8) with 256 in H.
  assert (Z.land (Z.shiftr w1 shift) 0xFF / 10 <= 255 / 10)
    by (apply Z.div_le_mono; lia).
  change (255 / 10) with 25 in *. lia.
Qed.

(** The loop of [case 0x04] after [m] turns. *)
Lemma gSPVertex_loop (st : GameState) (w0 w1 : Z) (cache : vector) (m : nat) :
  (m <= 16)%nat ->
  let cache' :=
    fold_left (fun c i => vector_set c (gSPVertex_slot w0 i) (gSPVertex_position L mem st w1 i))
              (seq 0 m) cache in
  vec_size cache' = vec_size cache /\
  length (vec_storage cache') = length (vec_storage cache) /\
  forall k : nat,
    vec_storage cache' !! k =
    if decide ((Z.to_nat (gSPVertex_v0 w0) <= k < Z.to_nat (gSPVertex_v0 w0) + m)%nat /\
               (k < length (vec_storage cache))%nat)
    then Some (gSPVertex_position L mem st w1 (k - Z.to_nat (gSPVertex_v0 w0)))
    else vec_storage cache !! k.
Proof.
  induction m as [|m IH]; intros Hm; cbn zeta.
  - repeat split. intros k. case_decide; [lia|reflexivity].
  - destruct IH as (Hsize & Hlen & Hlook); [lia|].
    rewrite seq_S, fold_left_app. cbn [fold_left Nat.add]. cbn zeta in Hsize, Hlen, Hlook.
    set (c := fold_left _ (seq 0 m) cache) in *.
    rewrite gSPVertex_slot_eq by lia. cbn [vector_set vec_size vec_storage].
    split; [exact Hsize|]. split; [rewrite length_insert; exact Hlen|].
    intros k. rewrite list_lookup_insert, Hlen, Hlook.
    repeat case_decide; try lia; try reflexivity.
    f_equal. f_equal. lia.
Qed.

(** What a vertex load leaves in the storage of the cache. *)
Lemma gSPVertex_storage (st : GameState) (w0 w1 : Z) (cache : vector) :
  vec_size (gSPVertex L mem st w0 w1 cache) = 0%nat /\
  length (vec_storage (gSPVertex L mem st w0 w1 cache)) = length (vec_storage cache) /\
  forall k : nat,
    vec_storage (gSPVertex L mem st w0 w1 cache) !! k =
    if decide ((Z.to_nat (gSPVertex_v0 w0) <= k
                < Z.to_nat (gSPVertex_v0 w0) + Z.to_nat (gSPVertex_n w0))%nat /\
               (k < length (vec_storage cache))%nat)
    then Some (gSPVertex_position L mem st w1 (k - Z.to_nat (gSPVertex_v0 w0)))
    else vec_storage cache !! k.
Proof.
  pose proof (gSPVertex_n_range w0) as Hn.
  apply (gSPVertex_loop st w0 w1 (vector_clear cache)). lia.
Qed.

(** After a vertex load [size()] is 0: from then on every access of the
    interpreter is at or above it, inside the storage. *)
Remark gSPVertex_size (st : GameState) (w0 w1 : Z) (cache : vector) :
  vec_size (gSPVertex L mem st w0 w1 cache) = 0%nat.
Proof. apply gSPVertex_storage. Qed.

Lemma interpret_display_list_storage (fuel : nat) (st : GameState) (dl : Z) (indent : string)
    (g g' : gfx) :
  interpret_display_list L mem fuel st dl indent g = Some (Returned g') ->
  length (vec_storage (loaded_vertices g')) = length (vec_storage (loaded_vertices g)).
Proof.
  revert dl indent g g'.
  induction fuel as [|fuel IH]; intros dl indent g g' H; [discriminate|].
  rewrite interpret_display_list_step in H.
  destruct (opcode mem dl =? 0x01); [discriminate|].
  destruct (opcode mem dl =? 0x04).
  { apply IH in H. rewrite H. cbn [loaded_vertices]. apply gSPVertex_storage. }
  destruct (opcode mem dl =? 0x06).
  - destruct (word0 mem dl =? 0x06000000).
    + destruct (interpret_display_list L mem fuel st (list_target L mem st dl) _ g)
        as [[g1|status err]|] eqn:E; [|discriminate|discriminate].
      apply IH in E. apply IH in H. congruence.
    + destruct (word0 mem dl =? 0x06010000); [apply IH in H; exact H|discriminate].
  - destruct (opcode mem dl =? 0xB8); [injection H as <-; reflexivity|].
    destruct (opcode mem dl =? 0xBF); apply IH in H; exact H.
Qed.

(** A vertex load leaves the vector with no element and the program in a
    state the language does not define: [clear()] comes first, so the first
    assignment already is at [size()]. *)
Lemma gSPVertex_undefined (st : GameState) (w0 w1 : Z) (cache : vector) :
  vec_size (gSPVertex L mem st w0 w1 cache) = 0%nat /\
  vec_defined (gSPVertex L mem st w0 w1 cache) = false /\
  forall i : nat, vector_in_range (vector_clear cache) (gSPVertex_slot w0 i) = false.
Proof.
  split; [apply gSPVertex_storage|]. split; [|reflexivity].
  unfold gSPVertex. pose proof (gSPVertex_n_range w0) as Hn.
  destruct (Z.to_nat (gSPVertex_n w0)) as [|n] eqn:En; [lia|].
  cbn [seq fold_left].
  assert (Hstay : forall (l : list nat) (c : vector),
            vec_defined c = false ->
            vec_defined
              (fold_left (fun c i => vector_set c (gSPVertex_slot w0 i)
                                       (gSPVertex_position L mem st w1 i)) l c) = false).
  { induction l as [|i l IHl]; intros c Hc; [exact Hc|].
    cbn [fold_left]. apply IHl. cbn [vector_set vec_defined]. rewrite Hc. reflexivity. }
  apply Hstay. cbn [vector_set vector_clear vec_defined vector_in_range vec_size].
  apply andb_false_r.
Qed.

(** A run that ends in a state the language defines has made no vertex load
    and no read at or above [size()]: the vector is the one it started with. *)
Lemma interpret_display_list_defined (fuel : nat) (st : GameState) (dl : Z) (indent : string)
    (g g' : gfx) :
  interpret_display_list L mem fuel st dl indent g = Some (Returned g') ->
  vec_defined (loaded_vertices g') = true ->
  loaded_vertices g' = loaded_vertices g.
Proof.
  revert dl indent g g'.
  induction fuel as [|fuel IH]; intros dl indent g g' H Hdef; [discriminate|].
  rewrite interpret_display_list_step in H.
  destruct (opcode mem dl =? 0x01); [discriminate|].
  destruct (opcode mem dl =? 0x04).
  { apply IH in H; [|exact Hdef]. rewrite H in Hdef. cbn [loaded_vertices] in Hdef.
    destruct (gSPVertex_undefined st (word0 mem dl) (word1 L mem dl) (loaded_vertices g))
      as (_ & Hundef & _).
    congruence. }
  destruct (opcode mem dl =? 0x06).
  - destruct (word0 mem dl =? 0x06000000).
    + destruct (interpret_display_list L mem fuel st (list_target L mem st dl) _ g)
        as [[g1|status err]|] eqn:E; [|discriminate|discriminate].
      apply IH in H; [|exact Hdef]. rewrite H in Hdef |- *. apply IH in E; assumption.
    + destruct (word0 mem dl =? 0x06010000); [apply IH in H; assumption|discriminate].
  - destruct (opcode mem dl =? 0xB8); [injection H as <-; reflexivity|].
    destruct (opcode mem dl =? 0xBF); [|apply IH in H; assumption].
    apply IH in H; [|exact Hdef]. rewrite H in Hdef |- *. cbn [loaded_vertices] in *.
    unfold gSP1Triangle_reads, vector_read in *. cbn [vec_defined] in Hdef.
    apply andb_true_iff in Hdef as [Hg Hreads]. rewrite Hg, Hreads.
    destruct (loaded_vertices g) as [size storage defined]. cbn in *. congruence.
Qed.

(** C8.  Whatever the two words of a command are, a vertex load writes the
    slots [v0 .. v0+n-1] with [v0 <= 15] and [n <= 16], so at most slot 30,
    and a triangle reads three slots that are at most 25; the storage of the
    cache keeps its 32 slots over an interpretation, so every access of the
    interpreter falls on one of them. *)
Theorem cache_accesses_within_capacity :
  (forall w0 : Z,
     0 <= gSPVertex_v0 w0 <= 15 /\ 1 <= gSPVertex_n w0 <= 16 /\
     forall i : nat,
       (i < Z.to_nat (gSPVertex_n w0))%nat ->
       gSPVertex_slot w0 i = (Z.to_nat (gSPVertex_v0 w0) + i)%nat /\
       (gSPVertex_slot w0 i <= 30)%nat) /\
  (forall w1 shift : Z, (gSP1Triangle_index w1 shift <= 25)%nat) /\
  (forall (cache : vector) (w0 w1 shift : Z) (i : nat),
     length (vec_storage cache) = 32%nat ->
     (i < Z.to_nat (gSPVertex_n w0))%nat ->
     is_Some (vec_storage cache !! gSPVertex_slot w0 i) /\
     is_Some (vec_storage cache !! gSP1Triangle_index w1 shift)) /\
  (forall fuel st dl indent g g',
     length (vec_storage (loaded_vertices g)) = 32%nat ->
     interpret_display_list L mem fuel st dl indent g = Some (Returned g') ->
     length (vec_storage (loaded_vertices g')) = 32%nat).
Proof.
  assert (Hslot : forall w0 i, (i < Z.to_nat (gSPVertex_n w0))%nat ->
            gSPVertex_slot w0 i = (Z.to_nat (gSPVertex_v0 w0) + i)%nat /\
            (gSPVertex_slot w0 i <= 30)%nat).
  { intros w0 i Hi. pose proof (gSPVertex_n_range w0). pose proof (gSPVertex_v0_range w0).
    rewrite gSPVertex_slot_eq by lia. split; [reflexivity|lia]. }
  split; [|split; [|split]].
  - intros w0. split; [apply gSPVertex_v0_range|]. split; [apply gSPVertex_n_range|].
    apply Hslot.
  - apply gSP1Triangle_index_range.
  - intros cache w0 w1 shift i Hlen Hi. split; apply lookup_lt_is_Some; rewrite Hlen.
    + destruct (Hslot w0 i Hi). lia.
    + pose proof (gSP1Triangle_index_range w1 shift). lia.
  - intros fuel st dl indent g g' Hlen H.
    rewrite (interpret_display_list_storage _ _ _ _ _ _ H). exact Hlen.
Qed.

End VertexCacheFacts.

(** A vertex load of three vertices, a triangle and an end: the run is over
    after one line loop.  Its vertices are those the storage holds when the
    library does not check subscripts; the load and the reads are at or above
    [size()], so the state is one the language does not define. *)
Example interpret_load_triangle_end :
  exists g' : gfx,
    interpret_display_list layout32 display_memory 3 display_state 0x20001000 "" gfx_initial
      = Some (Returned g') /\
    gl_calls g' = triangle_calls /\
    vec_size (loaded_vertices g') = 0%nat /\
    length (vec_storage (loaded_vertices g')) = 32%nat /\
    vec_defined (loaded_vertices g') = false.
Proof. eexists. split; [vm_compute; reflexivity|]. repeat split. Qed.

Example interpret_call_resumes :
  exists g' : gfx,
    interpret_display_list layout32 display_memory 4 display_state 0x20003000 "" gfx_initial
      = Some (Returned g') /\
    gl_calls g' = triangle_calls ++ triangle_calls.
Proof. eexists. split; [vm_compute; reflexivity|]. reflexivity. Qed.

Example interpret_branch_does_not_return :
  exists g' : gfx,
    interpret_display_list layout32 display_memory 4 display_state 0x20004000 "" gfx_initial
      = Some (Returned g') /\
    gl_calls g' = triangle_calls.
Proof. eexists. split; [vm_compute; reflexivity|]. reflexivity. Qed.

Lemma gSPMatrix_exits_witness :
  interpret_display_list layout32 display_memory 1 display_state 0x20006000 "" gfx_initial =
    Some (Exited 1 ("gSPMatrix" ++ newline)%string) /\
  runs_to layout32 display_memory display_state 0x20006000 "" gfx_initial
    (Exited 1 ("gSPMatrix" ++ newline)%string).
Proof. apply gSPMatrix_exits. vm_compute. reflexivity. Defined.

Lemma gSPDisplayList_call_branch_exit_witness :
  (exists g', runs_to layout32 display_memory display_state 0x20003000 "" gfx_initial
                (Returned g') /\
              gl_calls g' = triangle_calls ++ triangle_calls) /\
  (exists g', runs_to layout32 display_memory display_state 0x20004000 "" gfx_initial
                (Returned g') /\
              gl_calls g' = triangle_calls) /\
  interpret_display_list layout32 display_memory 1 display_state 0x20005000 "" gfx_initial =
    Some (Exited 1 ("gSPDisplayList: 0x06020000" ++ newline)%string).
Proof.
  split; [|split].
  - destruct (gSPDisplayList_call_branch_exit layout32 display_memory display_state
                0x20003000 "" gfx_initial) as (Hcall & _ & _).
    eexists. split.
    + apply Hcall; [vm_compute; reflexivity|]. left. eexists. split.
      * exists 3%nat. vm_compute. reflexivity.
      * exists 2%nat. vm_compute. reflexivity.
    + reflexivity.
  - destruct (gSPDisplayList_call_branch_exit layout32 display_memory display_state
                0x20004000 "" gfx_initial) as (_ & Hbranch & _).
    destruct Hbranch as (_ & _ & Hruns); [vm_compute; reflexivity|].
    eexists. split.
    + apply Hruns. exists 3%nat. vm_compute. reflexivity.
    + reflexivity.
  - destruct (gSPDisplayList_call_branch_exit layout32 display_memory display_state
                0x20005000 "" gfx_initial) as (_ & _ & Hexit).
    rewrite Hexit; [reflexivity|vm_compute; reflexivity|vm_compute; congruence
                   |vm_compute; congruence].
Defined.

Lemma cache_accesses_within_capacity_witness :
  gSPVertex_slot 0x04FF0000 15 = 30%nat /\
  (gSP1Triangle_index 0x00FFFFFF 16 <= 25)%nat.
Proof.
  destruct (cache_accesses_within_capacity layout32 display_memory) as (Hload & Htri & _).
  split; [|apply Htri].
  destruct (Hload 0x04FF0000) as (_ & _ & Hslot).
  destruct (Hslot 15%nat) as [-> _]; [vm_compute; lia|]. reflexivity.
Defined.

(** C3.  The claim fails on the code at every vertex load.  The case begins
    with [loaded_vertices.clear()], which leaves the vector with no element,
    and then assigns [loaded_vertices[v0 + i]]: every one of these
    subscripts is at or above [size()], where the language leaves
    [operator[]] undefined, so no slot is written by a defined assignment
    and the reads of the triangles that follow are undefined as well.  For
    the load [0x04200000 0x10002000] at [0x20001000], on the vector of 32
    elements as constructed: [clear()] gives size 0, the first assignment is
    at subscript 0, the load and the run of the list end in a state the
    language does not define; and only a run without a vertex load and
    without a read at or above [size()] ends in a defined state. *)
Theorem vertex_load_is_out_of_size :
  (forall (L : Layout) (mem : Memory) (st : GameState) (w0 w1 : Z) (cache : vector),
     vec_size (gSPVertex L mem st w0 w1 cache) = 0%nat /\
     vec_defined (gSPVertex L mem st w0 w1 cache) = false /\
     forall i : nat, vector_in_range (vector_clear cache) (gSPVertex_slot w0 i) = false) /\
  (forall (L : Layout) (mem : Memory) (fuel : nat) (st : GameState) (dl : Z)
          (indent : string) (g : gfx),
     opcode mem dl = 0x04 ->
     exists g1 : gfx,
       vec_defined (loaded_vertices g1) = false /\
       interpret_display_list L mem (S fuel) st dl indent g =
       interpret_display_list L mem fuel st (ptr L (dl + 8)) indent g1) /\
  (forall (L : Layout) (mem : Memory) (fuel : nat) (st : GameState) (dl : Z)
          (indent : string) (g g' : gfx),
     interpret_display_list L mem fuel st dl indent g = Some (Returned g') ->
     vec_defined (loaded_vertices g') = true ->
     loaded_vertices g' = loaded_vertices g) /\
  vec_size loaded_vertices_initial = 32%nat /\
  vec_defined loaded_vertices_initial = true /\
  vec_size (vector_clear loaded_vertices_initial) = 0%nat /\
  gSPVertex_slot 0x04200000 0 = 0%nat /\
  vec_defined (gSPVertex layout32 display_memory display_state 0x04200000 0x10002000
                 loaded_vertices_initial) = false /\
  exists g' : gfx,
    interpret_display_list layout32 display_memory 3 display_state 0x20001000 "" gfx_initial
      = Some (Returned g') /\
    vec_size (loaded_vertices g') = 0%nat /\
    vec_defined (loaded_vertices g') = false.
Proof.
  split; [intros; apply gSPVertex_undefined|].
  split.
  { intros L mem fuel st dl indent g H4.
    eexists. split; [|rewrite interpret_display_list_step, H4; reflexivity].
    cbn [loaded_vertices]. apply gSPVertex_undefined. }
  split; [intros L mem fuel st dl indent g g'; apply interpret_display_list_defined|].
  repeat split.
  eexists. split; [vm_compute; reflexivity|]. split; reflexivity.
Qed.

(** * Further properties of the address rebaser *)

Section RebaserMoreFacts.

Variable L : Layout.

(** X1.  Rebasing a pointer of the reference image into the snapshot and
    then back, with the two images exchanged, gives the pointer again. *)
Theorem from_base_round_trip (fr fr' ref tgt v : Z) :
  valid_image L ref -> valid_image L tgt ->
  ref <= v < ref + sizeof_SM64State L ->
  from_base L {| frame := fr'; base := tgt; data := ref |}
    (from_base L {| frame := fr; base := ref; data := tgt |} v) = v.
Proof.
  intros Href Htgt Hin.
  rewrite (from_base_inside L {| frame := fr; base := ref; data := tgt |} v)
    by assumption.
  cbn [base data].
  rewrite (from_base_inside L {| frame := fr'; base := tgt; data := ref |})
    by (cbn [base data]; try assumption; lia).
  cbn [base data]. lia.
Qed.

(** X2.  When the snapshot does not overlap the reference image, a rebased
    pointer is left alone by a second rebasing: [from_base] can be applied
    to a pointer that was already rebased. *)
Theorem from_base_idempotent (st : GameState) (v : Z) :
  valid_image L (base st) -> valid_image L (data st) ->
  data st + sizeof_SM64State L <= base st \/ base st + sizeof_SM64State L <= data st ->
  from_base L st (from_base L st v) = from_base L st v.
Proof.
  intros Href Htgt Hdisjoint.
  destruct (Z_lt_dec v (base st)) as [Hlo|Hlo];
    [rewrite (from_base_outside L st v) by (assumption || lia);
     apply from_base_outside; [assumption|lia]|].
  destruct (Z_lt_dec v (base st + sizeof_SM64State L)) as [Hhi|Hhi];
    [|rewrite (from_base_outside L st v) by (assumption || lia);
      apply from_base_outside; [assumption|lia]].
  rewrite (from_base_inside L st v) by (assumption || lia).
  apply from_base_outside; [assumption|lia].
Qed.

(** X3.  For a snapshot that is its own reference image, [from_base] is the
    identity on addresses. *)
Theorem from_base_same_image (st : GameState) (v : Z) :
  data st = base st -> 0 <= v < ptr_modulus L -> from_base L st v = v.
Proof.
  intros Hsame Hv. unfold from_base. rewrite Hsame.
  destruct (_ || _); [reflexivity|].
  replace (v - base st + base st) with v by lia. apply ptr_small, Hv.
Qed.

(** X4.  When neither image starts at address 0, [from_base] gives the null
    pointer for the null pointer and for nothing else: the tests
    [node != nullptr] and [mario_object != nullptr] of [render] see the
    nullness of the pointer stored in the snapshot. *)
Theorem from_base_null_iff (st : GameState) (v : Z) :
  valid_image L (base st) -> valid_image L (data st) ->
  0 < base st -> 0 < data st ->
  (from_base L st v = NULL <-> v = NULL).
Proof.
  intros Href Htgt Hb Hd. unfold NULL.
  destruct (Z_lt_dec v (base st)) as [Hlo|Hlo];
    [rewrite (from_base_outside L st v) by (assumption || lia); reflexivity|].
  destruct (Z_lt_dec v (base st + sizeof_SM64State L)) as [Hhi|Hhi];
    [|rewrite (from_base_outside L st v) by (assumption || lia); reflexivity].
  rewrite (from_base_inside L st v) by (assumption || lia). lia.
Qed.

(** The loop of [segmented_to_virtual] returns the [result] it was given or
    the translation through a descriptor that contains [addr]. *)
Lemma segment_loop_returned (table : nat -> Segment) (addr : Z) (n i : nat) (result r : Z) :
  segment_loop L n table addr i result = Returned r ->
  r = result \/
  exists k, (i <= k < i + n)%nat /\ segment_contains (table k) addr = true /\
            r = segment_translate L (table k) addr.
Proof.
  revert i result. induction n as [|n IH]; intros i result H.
  - injection H as <-. left. reflexivity.
  - cbn [segment_loop] in H.
    destruct (segment_contains (table i) addr) eqn:Hc.
    + destruct (negb (result =? NULL)); [discriminate|].
      apply IH in H as [->|(k & Hk & Hck & ->)].
      * right. exists i. split; [lia|]. split; [exact Hc|reflexivity].
      * right. exists k. split; [lia|]. split; [exact Hck|reflexivity].
    + apply IH in H as [->|(k & Hk & Hck & ->)]; [left; reflexivity|].
      right. exists k. split; [lia|]. split; [exact Hck|reflexivity].
Qed.

(** X5.  The address [segmented_to_virtual] returns is never the null
    pointer unless [addr] is; it is [addr] itself or the translation of
    [addr] through one of the 32 descriptors whose source range contains it. *)
Theorem segmented_to_virtual_returned (table : nat -> Segment) (addr r : Z) :
  segmented_to_virtual L table addr = Returned r ->
  (r = NULL -> addr = NULL) /\
  (r = addr \/
   exists k, (k < 32)%nat /\ segment_contains (table k) addr = true /\
             r = segment_translate L (table k) addr).
Proof.
  unfold segmented_to_virtual. intros H.
  destruct (segment_loop L 32 table addr 0 NULL) as [r0|status err] eqn:Hloop;
    [|discriminate].
  injection H as <-. destruct (r0 =? NULL) eqn:Hr0.
  - split; [tauto|]. left. reflexivity.
  - apply Z.eqb_neq in Hr0. split; [intros; contradiction|].
    apply segment_loop_returned in Hloop as [->|(k & Hk & Hc & ->)]; [contradiction|].
    right. exists k. split; [lia|]. split; [exact Hc|reflexivity].
Qed.

(** X6.  [segmented_to_virtual] exits only with status 1 and its warning,
    and only when at least two descriptors contain the address: with no or
    one such descriptor it always returns. *)
Theorem segmented_to_virtual_exit (table : nat -> Segment) (addr : Z) (status : Z)
    (err : string) :
  segmented_to_virtual L table addr = Exited status err ->
  status = 1 /\ err = two_segments_warning /\
  (2 <= length (matching_segments table addr))%nat.
Proof.
  unfold segmented_to_virtual. intros H.
  destruct (matching_segments table addr) as [|k [|k' rest]] eqn:Hm.
  - rewrite segment_loop_no_match in H by exact Hm. discriminate.
  - destruct (segment_loop_first_match L table addr 32 0 k [] Hm) as (n' & Hrest & Hloop).
    rewrite Hloop, segment_loop_no_match in H by exact Hrest. discriminate.
  - destruct (segment_loop_first_match L table addr 32 0 k (k' :: rest) Hm)
      as (n' & Hrest & Hloop).
    rewrite Hloop in H. clear Hloop.
    assert (Hexit : forall n i result s e,
              segment_loop L n table addr i result = Exited s e ->
              s = 1 /\ e = two_segments_warning).
    { clear. induction n as [|n IH]; intros i result s e H; [discriminate|].
      cbn [segment_loop] in H.
      destruct (segment_contains (table i) addr).
      - destruct (negb (result =? NULL)); [|apply IH in H; exact H].
        injection H as <- <-. split; reflexivity.
      - apply IH in H. exact H. }
    destruct (segment_loop L n' table addr (S k) _) as [r|s e] eqn:Hl; [discriminate|].
    injection H as <- <-. apply Hexit in Hl as [-> ->].
    repeat split. cbn. lia.
Qed.

(** X7.  With exactly one descriptor containing the address and its
    destination block lying in the address space above address 0, the
    result lies in the destination block at the offset the address has in
    the source range. *)
Theorem segmented_to_virtual_into_destination (table : nat -> Segment) (addr : Z) (k : nat) :
  matching_segments table addr = [k] ->
  0 < dstStart (table k) ->
  dstStart (table k) + (srcEnd (table k) - srcStart (table k)) <= ptr_modulus L ->
  exists r, segmented_to_virtual L table addr = Returned r /\
            r - dstStart (table k) = addr - srcStart (table k) /\
            dstStart (table k) <= r
            < dstStart (table k) + (srcEnd (table k) - srcStart (table k)).
Proof.
  intros Hm Hdst Hfit.
  assert (Hc : segment_contains (table k) addr = true).
  { assert (Hin : k ∈ matching_segments table addr) by (rewrite Hm; left).
    unfold matching_segments in Hin. apply list_elem_of_filter in Hin as [Hc _]. exact Hc. }
  unfold segment_contains in Hc. apply andb_true_iff in Hc as [Hlo Hhi].
  apply Z.leb_le in Hlo. apply Z.ltb_lt in Hhi.
  assert (Ht : segment_translate L (table k) addr
               = addr - srcStart (table k) + dstStart (table k)).
  { unfold segment_translate. apply ptr_small. lia. }
  exists (segment_translate L (table k) addr). split.
  - apply segmented_to_virtual_one_match; [exact Hm|]. rewrite Ht. unfold NULL. lia.
  - rewrite Ht. lia.
Qed.

End RebaserMoreFacts.

(** X8.  The object list of a behavior script is [OBJ_LIST_DEFAULT] unless
    the first command has a zero high byte; then it is the second byte of
    that command, a number below 256 (the mask [0xFFFF] removes nothing). *)
Theorem get_object_list_from_behavior_range (mem : Memory) (OBJ_LIST_DEFAULT behavior : Z) :
  let behavior0 := u32 (load_u32 mem behavior) in
  (behavior0 < 2 ^ 24 ->
   get_object_list_from_behavior mem OBJ_LIST_DEFAULT behavior = behavior0 / 2 ^ 16 /\
   0 <= get_object_list_from_behavior mem OBJ_LIST_DEFAULT behavior < 256) /\
  (2 ^ 24 <= behavior0 ->
   get_object_list_from_behavior mem OBJ_LIST_DEFAULT behavior = OBJ_LIST_DEFAULT).
Proof.
  intros behavior0. unfold get_object_list_from_behavior. fold behavior0.
  assert (Hrange : 0 <= behavior0 < 2 ^ 32) by (apply Z.mod_pos_bound; lia).
  rewrite !Z.shiftr_div_pow2 by lia. split; intros H.
  - rewrite Z.div_small by lia. cbn [Z.eqb].
    assert (Hq : 0 <= behavior0 / 2 ^ 16 < 256).
    { split; [apply Z.div_pos; lia|]. apply Z.div_lt_upper_bound; lia. }
    change 0xFFFF with (Z.ones 16). rewrite Z.land_ones by lia.
    rewrite Z.mod_small by lia. split; [reflexivity|exact Hq].
  - assert (Hq : 1 <= behavior0 / 2 ^ 24) by (apply Z.div_le_lower_bound; lia).
    destruct (behavior0 / 2 ^ 24 =? 0) eqn:E; [apply Z.eqb_eq in E; lia|reflexivity].
Qed.

(** * Further properties of the scene *)

Section SceneMoreFacts.

Variable L : Layout.
Variable mem : Memory.

(** X9.  The scene has one surface per entry of the surface pool that
    [gSurfacesAllocated] counts, in pool order, with the normal of that entry
    unchanged and the class of that normal; with a counter of 0 or below it
    has none. *)
Theorem scene_surfaces_entries (st : GameState) :
  let pool := from_base L st (sSurfacePool mem (data st)) in
  length (scene_surfaces L mem st) = Z.to_nat (gSurfacesAllocated mem (data st)) /\
  (gSurfacesAllocated mem (data st) <= 0 -> scene_surfaces L mem st = []) /\
  (forall (i : nat) (s : Surface),
     scene_surfaces L mem st !! i = Some s ->
     let entry := load_Surface mem (ptr L (pool + Z.of_nat i * sizeof_Surface L)) in
     (Z.of_nat i < gSurfacesAllocated mem (data st)) /\
     surface_normal s = normal entry /\
     surface_type s = classify_surface (normal entry) /\
     surface_vertices s =
       (vec3_of_s16 (vertex1 entry), vec3_of_s16 (vertex2 entry),
        vec3_of_s16 (vertex3 entry))).
Proof.
  intros pool. unfold scene_surfaces. split; [|split].
  - rewrite length_map, length_seq. reflexivity.
  - intros H. replace (Z.to_nat _) with 0%nat by lia. reflexivity.
  - intros i s Hi. cbv zeta. rewrite list_lookup_fmap in Hi.
    destruct (seq 0 _ !! i) as [j|] eqn:Hj; [|discriminate].
    apply lookup_seq in Hj as [-> Hlt]. cbn in Hi. injection Hi as <-.
    split; [lia|]. repeat split.
Qed.

Lemma length_omap_le {A B : Type} (f : A -> option B) (l : list A) :
  (length (omap f l) <= length l)%nat.
Proof.
  induction l as [|x l IH]; cbn; [lia|]. destruct (f x); cbn; lia.
Qed.

Lemma length_omap_seq {B : Type} (f : nat -> option B) (n : nat) :
  (length (omap f (seq 0 n)) <= n)%nat.
Proof.
  pose proof (length_omap_le f (seq 0 n)) as H. rewrite length_seq in H. exact H.
Qed.

(** X10.  The objects of the scene are the slots of the 240-slot object pool
    whose [activeFlags] have the active bit: there are at most 240, an object
    of the scene carries the position and hitbox of an active slot, every
    active slot gives one, and when no slot is active there is none. *)
Theorem scene_objects_are_the_active_slots (st : GameState) :
  let active i :=
    Z.land (activeFlags (gObjectPool mem (data st) i)) (ACTIVE_FLAG_ACTIVE L) <> 0 in
  let object_of i :=
    {| object_pos := oPos (gObjectPool mem (data st) i);
       object_hitboxHeight := hitboxHeight (gObjectPool mem (data st) i);
       object_hitboxRadius := hitboxRadius (gObjectPool mem (data st) i) |} in
  (length (scene_objects L mem st) <= 240)%nat /\
  (forall o : Object,
     o ∈ scene_objects L mem st <-> exists i, (i < 240)%nat /\ active i /\ o = object_of i) /\
  ((forall i, (i < 240)%nat -> ~ active i) -> scene_objects L mem st = []).
Proof.
  intros active object_of.
  assert (Hmem : forall o : Object,
            o ∈ scene_objects L mem st <->
            exists i, (i < 240)%nat /\ active i /\ o = object_of i).
  { intros o. unfold scene_objects. rewrite list_elem_of_omap. split.
    - intros (i & Hi & Hf). apply elem_of_seq in Hi. exists i. split; [lia|].
      unfold active.
      destruct (Z.land _ _ =? 0) eqn:E; [discriminate|].
      apply Z.eqb_neq in E. injection Hf as <-. split; [exact E|reflexivity].
    - intros (i & Hi & Ha & ->). exists i. split; [apply elem_of_seq; lia|].
      unfold active in Ha. apply Z.eqb_neq in Ha. rewrite Ha. reflexivity. }
  split; [|split; [exact Hmem|]].
  - unfold scene_objects. apply length_omap_seq.
  - intros Hnone.
    destruct (scene_objects L mem st) as [|o rest]; [reflexivity|].
    exfalso. destruct (proj1 (Hmem o)) as (i & Hi & Ha & _); [left|].
    exact (Hnone i Hi Ha).
Qed.

(** X11.  The path of the scene has one node per snapshot of the history, in
    the order of the history, and the position of a node is the position of
    the character read through the reference image and the snapshot image of
    that node's own snapshot, whatever the current snapshot is. *)
Theorem path_nodes_follow_the_history (info : RenderInfo) :
  exists path : ObjectPath,
    object_paths (build_scene L mem info).1 = [path] /\
    length (nodes path) = length (path_states info) /\
    forall (i : nat) (s : GameState) (node : ObjectPathNode),
      path_states info !! i = Some s -> nodes path !! i = Some node ->
      node_pos node =
      load_MarioState_pos mem (from_base L s (gMarioState mem (data s))).
Proof.
  destruct (build_scene_object_paths L mem info) as [Hpaths _].
  destruct (build_mario_path_spec L mem
              (find_distance (path_states info) (current_state info))
              (path_states info)) as (Hlen & Hlook & _).
  eexists. split; [exact Hpaths|]. cbn [nodes]. split; [exact Hlen|].
  intros i s node Hs Hnode. rewrite Hlook, Hs in Hnode.
  cbn in Hnode. injection Hnode as <-. reflexivity.
Qed.

(** X12.  Building a scene prints at most one number: the length of the
    fine-step log of the snapshot that follows the current one in the
    history, and only when that length is above 4. *)
Theorem build_scene_output (info : RenderInfo) :
  let history := path_states info in
  let current_index := find_distance history (current_state info) in
  let out := (build_scene L mem info).2 in
  (length out <= 1)%nat /\
  (forall n : Z,
     n ∈ out ->
     4 < n /\
     exists next, history !! S current_index = Some next /\
                  n = numSteps (gQStepsInfo mem (data next))) /\
  (forall next,
     history !! S current_index = Some next ->
     numSteps (gQStepsInfo mem (data next)) <= 4 -> out = []).
Proof.
  intros history current_index out.
  destruct (build_scene_object_paths L mem info) as [_ Hout].
  destruct (build_mario_path_spec L mem current_index history) as (_ & _ & Hprint).
  assert (E : out = from_option (qsteps_diagnostic mem) [] (history !! S current_index)).
  { unfold out. rewrite Hout. exact Hprint. }
  rewrite E. unfold qsteps_diagnostic.
  destruct (history !! S current_index) as [next|]; cbn [from_option].
  - destruct (4 <? numSteps (gQStepsInfo mem (data next))) eqn:E4.
    + apply Z.ltb_lt in E4. split; [cbn; lia|]. split.
      * intros n Hn. apply list_elem_of_singleton in Hn as ->.
        split; [exact E4|]. exists next. split; reflexivity.
      * intros next' Hnext Hle. injection Hnext as <-. lia.
    + split; [cbn; lia|]. split; [intros n Hn; inversion Hn|reflexivity].
  - split; [cbn; lia|]. split; [intros n Hn; inversion Hn|discriminate].
Qed.

End SceneMoreFacts.

(** * Further properties of the display-list interpreter *)

Section InterpreterMoreFacts.

Variable L : Layout.
Variable mem : Memory.

(** X13.  The interpreter exits in two ways only, both with status 1: with
    [gSPMatrix] at a command of opcode [0x01], or with the word of a command
    of opcode [0x06] that is neither a call nor a branch. *)
Theorem interpret_display_list_exits (fuel : nat) (st : GameState) (dl : Z) (indent : string)
    (g : gfx) (status : Z) (err : string) :
  interpret_display_list L mem fuel st dl indent g = Some (Exited status err) ->
  status = 1 /\
  (err = ("gSPMatrix" ++ newline)%string \/
   exists w : Z,
     u8 (Z.shiftr w 24) = 0x06 /\ w <> 0x06000000 /\ w <> 0x06010000 /\
     err = ("gSPDisplayList: 0x" ++ hex8 w ++ newline)%string).
Proof.
  revert dl indent g.
  induction fuel as [|fuel IH]; intros dl indent g H; [discriminate|].
  rewrite interpret_display_list_step in H.
  destruct (opcode mem dl =? 0x01).
  { injection H as <- <-. split; [reflexivity|left; reflexivity]. }
  destruct (opcode mem dl =? 0x04); [apply IH in H; exact H|].
  destruct (opcode mem dl =? 0x06) eqn:E6.
  - destruct (word0 mem dl =? 0x06000000) eqn:Ecall.
    + destruct (interpret_display_list L mem fuel st (list_target L mem st dl) _ g)
        as [[g'|status' err']|] eqn:E; [| |discriminate].
      * apply IH in H. exact H.
      * injection H as <- <-. apply IH in E. exact E.
    + destruct (word0 mem dl =? 0x06010000) eqn:Ebranch; [apply IH in H; exact H|].
      injection H as <- <-. split; [reflexivity|]. right. exists (word0 mem dl).
      apply Z.eqb_eq in E6. apply Z.eqb_neq in Ecall, Ebranch.
      repeat split; assumption.
  - destruct (opcode mem dl =? 0xB8); [discriminate|].
    destruct (opcode mem dl =? 0xBF); apply IH in H; exact H.
Qed.

(** The calls a run adds are those of the triangles it draws. *)
Lemma interpret_display_list_calls (fuel : nat) (st : GameState) (dl : Z)
    (indent : string) (g g' : gfx) :
  interpret_display_list L mem fuel st dl indent g = Some (Returned g') ->
  exists triangles : list (Z * vector),
    gl_calls g' = gl_calls g ++ concat (map (fun t => gSP1Triangle t.1 t.2) triangles).
Proof.
  revert dl indent g g'.
  induction fuel as [|fuel IH]; intros dl indent g g' H; [discriminate|].
  rewrite interpret_display_list_step in H.
  destruct (opcode mem dl =? 0x01); [discriminate|].
  destruct (opcode mem dl =? 0x04); [apply IH in H; exact H|].
  destruct (opcode mem dl =? 0x06).
  - destruct (word0 mem dl =? 0x06000000).
    + destruct (interpret_display_list L mem fuel st (list_target L mem st dl) _ g)
        as [[g1|status err]|] eqn:E; [|discriminate|discriminate].
      apply IH in E as [t1 E]. apply IH in H as [t2 ->].
      exists (t1 ++ t2). rewrite E, map_app, concat_app, app_assoc. reflexivity.
    + destruct (word0 mem dl =? 0x06010000); [apply IH in H; exact H|discriminate].
  - destruct (opcode mem dl =? 0xB8).
    { injection H as <-. exists []. cbn. rewrite app_nil_r. reflexivity. }
    destruct (opcode mem dl =? 0xBF); [|apply IH in H; exact H].
    apply IH in H as [ts ->]. cbn [gl_calls].
    exists ((word1 L mem dl, loaded_vertices g) :: ts).
    cbn [map concat fst snd]. rewrite <- app_assoc. reflexivity.
Qed.

(** X14.  A run that returns has added whole line loops to the calls issued
    before it and nothing else: each is [glBegin(GL_LINE_LOOP)], three
    [glVertex3f] and [glEnd], so the calls stay bracketed and their number
    grows by a multiple of five. *)
Theorem interpret_display_list_line_loops (fuel : nat) (st : GameState) (dl : Z)
    (indent : string) (g g' : gfx) :
  interpret_display_list L mem fuel st dl indent g = Some (Returned g') ->
  exists triangles : list (Z * vector),
    gl_calls g' = gl_calls g ++ concat (map (fun t => gSP1Triangle t.1 t.2) triangles) /\
    Forall (fun t => exists x0 y0 z0 x1 y1 z1 x2 y2 z2,
              gSP1Triangle t.1 t.2 =
              [glBegin_GL_LINE_LOOP; glVertex3f x0 y0 z0; glVertex3f x1 y1 z1;
               glVertex3f x2 y2 z2; glEnd]) triangles /\
    length (gl_calls g') = (length (gl_calls g) + 5 * length triangles)%nat.
Proof.
  intros H. apply interpret_display_list_calls in H as [triangles E].
  exists triangles. split; [exact E|]. split.
  - apply Forall_forall. intros t _. unfold gSP1Triangle. repeat eexists.
  - rewrite E, length_app. f_equal.
    clear E. induction triangles as [|t ts IHt]; [reflexivity|].
    cbn [map concat]. rewrite length_app, IHt. cbn. lia.
Qed.

(** X15.  A branch whose rebased target is the branch command itself loops
    for ever: a turn of the [while] loop at that command comes back to the
    same command in the same state, so no amount of fuel gives a result. *)
Theorem interpret_display_list_self_reference (st : GameState) (dl : Z) :
  word0 mem dl = 0x06010000 ->
  list_target L mem st dl = dl ->
  forall (fuel : nat) (indent : string) (g : gfx),
    interpret_display_list L mem (S fuel) st dl indent g =
    interpret_display_list L mem fuel st dl indent g /\
    interpret_display_list L mem fuel st dl indent g = None.
Proof.
  intros Hw Htarget.
  assert (Hop : opcode mem dl = 0x06) by (unfold opcode; rewrite Hw; reflexivity).
  assert (Hdl : 0 <= dl < ptr_modulus L).
  { rewrite <- Htarget. apply from_base_range, ptr_range. }
  assert (Hturn : forall fuel indent g,
            interpret_display_list L mem (S fuel) st dl indent g =
            interpret_display_list L mem fuel st dl indent g).
  { intros fuel indent g.
    rewrite interpret_display_list_step, Hop, Hw, Htarget. cbn.
    rewrite ptr_back_and_forth by exact Hdl. reflexivity. }
  intros fuel indent g. split; [apply Hturn|].
  induction fuel as [|fuel IH]; [reflexivity|]. rewrite Hturn. exact IH.
Qed.

Lemma ptr_add_ptr (a b : Z) : ptr L (ptr L a + b) = ptr L (a + b).
Proof. unfold ptr. apply Zplus_mod_idemp_l. Qed.

(** X16.  A stretch of [n] commands of any other opcode, known to the switch
    or not, is passed over: the run from its first command is the run from
    the command after the stretch, in the same state. *)
Theorem interpret_display_list_skips (st : GameState) (dl : Z) (n : nat) :
  0 <= dl < ptr_modulus L ->
  (forall k : nat, (k < n)%nat -> skipped mem (ptr L (dl + 8 * Z.of_nat k))) ->
  forall (fuel : nat) (indent : string) (g : gfx),
    interpret_display_list L mem (n + fuel) st dl indent g =
    interpret_display_list L mem fuel st (ptr L (dl + 8 * Z.of_nat n)) indent g.
Proof.
  revert dl. induction n as [|n IH]; intros dl Hdl Hskip fuel indent g.
  - cbn [Nat.add]. replace (dl + 8 * Z.of_nat 0) with dl by lia.
    rewrite ptr_small by exact Hdl. reflexivity.
  - cbn [Nat.add]. rewrite interpret_display_list_step.
    destruct (Hskip 0%nat) as (H1 & H4 & H6 & H8 & HF); [lia|].
    replace (dl + 8 * Z.of_nat 0) with dl in * by lia.
    rewrite (ptr_small L dl) in H1, H4, H6, H8, HF by exact Hdl.
    apply Z.eqb_neq in H1, H4, H6, H8, HF. rewrite H1, H4, H6, H8, HF.
    rewrite IH.
    + rewrite ptr_add_ptr. f_equal. f_equal. lia.
    + apply ptr_range.
    + intros k Hk. rewrite ptr_add_ptr.
      replace (dl + 8 + 8 * Z.of_nat k) with (dl + 8 * Z.of_nat (S k)) by lia.
      apply Hskip. lia.
Qed.

(** X17.  The [indent] argument has no effect on a run. *)
Theorem interpret_display_list_indent (fuel : nat) (st : GameState) (dl : Z)
    (indent indent' : string) (g : gfx) :
  interpret_display_list L mem fuel st dl indent g =
  interpret_display_list L mem fuel st dl indent' g.
Proof.
  revert dl indent indent' g.
  induction fuel as [|fuel IH]; intros dl indent indent' g; [reflexivity|].
  rewrite !interpret_display_list_step.
  rewrite (IH (list_target L mem st dl) (indent ++ "  ")%string (indent' ++ "  ")%string g).
  rewrite (IH (ptr L (ptr L (list_target L mem st dl - 8) + 8)) indent indent' g).
  destruct (interpret_display_list L mem fuel st (list_target L mem st dl) _ g)
    as [[g'|status err]|];
    repeat (rewrite (IH (ptr L (dl + 8)) indent indent'); try reflexivity).
Qed.

(** X18.  The interpreter does not read the calls already issued: a run
    started after [calls] is the run started without them, with [calls] put
    in front of what it issued. *)
Theorem interpret_display_list_after_calls (fuel : nat) (st : GameState) (dl : Z)
    (indent : string) (calls : list gl_call) (g : gfx) :
  interpret_display_list L mem fuel st dl indent (after_calls calls g) =
  match interpret_display_list L mem fuel st dl indent g with
  | Some (Returned g') => Some (Returned (after_calls calls g'))
  | stopped => stopped
  end.
Proof.
  revert dl indent g.
  induction fuel as [|fuel IH]; intros dl indent g; [reflexivity|].
  rewrite !interpret_display_list_step.
  destruct (opcode mem dl =? 0x01); [reflexivity|].
  destruct (opcode mem dl =? 0x04); [apply (IH _ _ {| loaded_vertices := _ |})|].
  destruct (opcode mem dl =? 0x06).
  - destruct (word0 mem dl =? 0x06000000).
    + rewrite IH.
      destruct (interpret_display_list L mem fuel st (list_target L mem st dl) _ g)
        as [[g'|status err]|]; [apply IH|reflexivity|reflexivity].
    + destruct (word0 mem dl =? 0x06010000); [apply IH|reflexivity].
  - destruct (opcode mem dl =? 0xB8); [reflexivity|].
    destruct (opcode mem dl =? 0xBF); [|apply IH].
    rewrite <- IH. unfold after_calls. cbn [loaded_vertices gl_calls].
    rewrite app_assoc. reflexivity.
Qed.

(** X19.  Whether a run ends, and with which exit, does not depend on the
    vertex cache nor on the calls issued: the state never decides where the
    interpreter goes. *)
Theorem interpret_display_list_ending (fuel : nat) (st : GameState) (dl : Z)
    (indent : string) (g1 g2 : gfx) :
  ending (interpret_display_list L mem fuel st dl indent g1) =
  ending (interpret_display_list L mem fuel st dl indent g2).
Proof.
  revert dl indent g1 g2.
  induction fuel as [|fuel IH]; intros dl indent g1 g2; [reflexivity|].
  rewrite !interpret_display_list_step.
  destruct (opcode mem dl =? 0x01); [reflexivity|].
  destruct (opcode mem dl =? 0x04); [apply IH|].
  destruct (opcode mem dl =? 0x06).
  - destruct (word0 mem dl =? 0x06000000).
    + pose proof (IH (list_target L mem st dl) (indent ++ "  ")%string g1 g2) as Hnested.
      destruct (interpret_display_list L mem fuel st (list_target L mem st dl) _ g1)
        as [[g1'|s1 e1]|];
        destruct (interpret_display_list L mem fuel st (list_target L mem st dl) _ g2)
        as [[g2'|s2 e2]|]; try discriminate; try exact Hnested.
      apply IH.
    + destruct (word0 mem dl =? 0x06010000); [apply IH|reflexivity].
  - destruct (opcode mem dl =? 0xB8); [reflexivity|].
    destruct (opcode mem dl =? 0xBF); apply IH.
Qed.

End InterpreterMoreFacts.

(** * Fixed-point matrices *)

(** X22.  The two [u16] words of a fixed-point entry, the high half of a
    32-bit two's complement number at [mtx[i]] and its low half at
    [mtx[16 + i]], decode to that number: [(s32)((hi << 16) + lo)] undoes the
    split of a signed 32-bit value into halves. *)
Theorem fixed_val32_round_trip (mtx : nat -> Z) (i : nat) (x : Z) :
  - 2 ^ 31 <= x < 2 ^ 31 ->
  u16 (mtx i) = Z.land (Z.shiftr x 16) 0xFFFF ->
  u16 (mtx (16 + i)%nat) = Z.land x 0xFFFF ->
  fixed_val32 mtx i = x.
Proof.
  intros Hx Hhi Hlo. unfold fixed_val32. rewrite Hhi, Hlo.
  change 0xFFFF with (Z.ones 16). rewrite !Z.land_ones by lia.
  rewrite Z.shiftr_div_pow2, Z.shiftl_mul_pow2 by lia.
  assert (E : (x / 2 ^ 16) mod 2 ^ 16 * 2 ^ 16 + x mod 2 ^ 16 = x mod 2 ^ 32).
  { change (2 ^ 32) with (2 ^ 16 * 2 ^ 16). rewrite Z.rem_mul_r by lia. lia. }
  rewrite E. unfold s32. rewrite Zplus_mod_idemp_l.
  rewrite Z.mod_small by lia. lia.
Qed.

Lemma fixed_val32_range (mtx : nat -> Z) (i : nat) :
  - 2 ^ 31 <= fixed_val32 mtx i < 2 ^ 31.
Proof.
  unfold fixed_val32, s32.
  pose proof (Z.mod_pos_bound (Z.shiftl (u16 (mtx i)) 16 + u16 (mtx (16 + i)%nat) + 2 ^ 31)
                (2 ^ 32)).
  lia.
Qed.

(** The loop of [matrix_fixed_to_float] for any entry values. *)
Lemma mat4_fill (e : nat -> spec_float) (result : mat4) :
  length result = 4%nat -> Forall (fun col => length col = 4%nat) result ->
  fold_left (fun m i => mat4_set m (i / 4) (i mod 4) (e i)) (seq 0 16) result =
  [ [e 0; e 1; e 2; e 3]; [e 4; e 5; e 6; e 7]; [e 8; e 9; e 10; e 11];
    [e 12; e 13; e 14; e 15] ]%nat.
Proof.
  intros Hlen Hcols.
  destruct result as [|c0 [|c1 [|c2 [|c3 [|]]]]]; try discriminate.
  apply Forall_cons in Hcols as [H0 Hcols]. apply Forall_cons in Hcols as [H1 Hcols].
  apply Forall_cons in Hcols as [H2 Hcols]. apply Forall_cons in Hcols as [H3 _].
  destruct c0 as [|? [|? [|? [|? [|]]]]]; try discriminate.
  destruct c1 as [|? [|? [|? [|? [|]]]]]; try discriminate.
  destruct c2 as [|? [|? [|? [|? [|]]]]]; try discriminate.
  destruct c3 as [|? [|? [|? [|? [|]]]]]; try discriminate.
  reflexivity.
Qed.

(** X23.  [matrix_fixed_to_float] assigns all sixteen entries of the matrix
    it declares, whatever that matrix held: entry [c][r] is the decoded
    number of index [4c + r] divided by [0x10000] in [f32], so the sixteen
    floats that [glMultMatrixf] reads from [&matrix[0][0]] are the sixteen
    entries of the fixed-point array in their order. *)
Theorem matrix_fixed_to_float_entries (result : mat4) (mtx : nat -> Z) :
  length result = 4%nat -> Forall (fun col => length col = 4%nat) result ->
  let entry i := f32_div (f32_of_s32 (fixed_val32 mtx i)) (f32_of_s32 0x10000) in
  (forall c r : nat, (c < 4)%nat -> (r < 4)%nat ->
     mat4_get (matrix_fixed_to_float result mtx) c r = Some (entry (4 * c + r)%nat)) /\
  concat (matrix_fixed_to_float result mtx) = map entry (seq 0 16).
Proof.
  intros Hlen Hcols entry.
  pose proof (mat4_fill entry result Hlen Hcols) as E.
  change (fold_left _ (seq 0 16) result) with (matrix_fixed_to_float result mtx) in E.
  rewrite E. split; [|reflexivity].
  intros c r Hc Hr.
  destruct c as [|[|[|[|c]]]]; try lia;
    destruct r as [|[|[|[|r]]]]; try lia; reflexivity.
Qed.

(** * The display lists of the character *)

Section CharacterDisplayListsFacts.

Variable L : Layout.
Variable mem : Memory.
Variable graph : GraphMemory.
Variable inverse_view_times : mat4 -> mat4.
Variable mat4_declared : mat4.

(** X24.  In a snapshot whose [gMarioObject] is null after rebasing, the walk
    over the display lists of [render] interprets nothing: if it ends, it
    returns with the vertex cache and the calls as they were, and it cannot
    exit. *)
Theorem render_display_lists_without_character (st : GameState) :
  from_base L st (gMarioObject graph (data st)) = NULL ->
  forall (fuel : nat) (o : overlay) (r : outcome overlay),
    render_display_lists L mem graph inverse_view_times mat4_declared fuel st o = Some r ->
    r = Returned o.
Proof.
  intros Hnull fuel.
  assert (Hnodes : forall fuel' node o r,
            walk_nodes L mem graph inverse_view_times mat4_declared fuel' st node o = Some r ->
            r = Returned o).
  { induction fuel' as [|fuel' IH]; intros node o r H; [discriminate|].
    cbn [walk_nodes] in H. rewrite Hnull in H. cbn in H.
    destruct (node =? NULL); [injection H as <-; reflexivity|].
    apply IH in H. exact H. }
  unfold render_display_lists. generalize (seq 0 8).
  induction l as [|i rest IH]; intros o r H; cbn [walk_lists] in H.
  - injection H as <-. reflexivity.
  - destruct (walk_nodes L mem graph inverse_view_times mat4_declared fuel st _ o)
      as [[o'|status err]|] eqn:E; [| |discriminate].
    + apply Hnodes in E. injection E as ->. apply IH, H.
    + apply Hnodes in E. discriminate.
Qed.

(** X25.  When the walk returns, the calls it added are a sequence of
    blocks, one per interpreted display list: [glPushMatrix], one
    [glMultMatrixf], the calls of the interpretation, [glPopMatrix].  Every
    push has its pop, and no call of a display list is made outside a block. *)
Theorem render_display_lists_blocks (fuel : nat) (st : GameState) (o o' : overlay) :
  render_display_lists L mem graph inverse_view_times mat4_declared fuel st o
    = Some (Returned o') ->
  exists blocks : list (mat4 * list gl_call),
    overlay_calls o' = overlay_calls o ++ concat (map matrix_block blocks).
Proof.
  assert (Hnodes : forall fuel' node o o',
            walk_nodes L mem graph inverse_view_times mat4_declared fuel' st node o
              = Some (Returned o') ->
            exists blocks : list (mat4 * list gl_call),
              overlay_calls o' = overlay_calls o ++ concat (map matrix_block blocks)).
  { clear. induction fuel' as [|fuel' IH]; intros node o o' H; [discriminate|].
    cbn [walk_nodes] in H.
    destruct (node =? NULL).
    { injection H as <-. exists []. cbn. rewrite app_nil_r. reflexivity. }
    destruct (negb _ && _).
    - unfold draw_node in H.
      destruct (interpret_display_list L mem fuel' st _ _ _) as [[g|status err]|];
        [|discriminate|discriminate].
      apply IH in H as [blocks ->]. cbn [overlay_calls].
      match goal with
      | |- context [glMultMatrixf ?m] => exists ((m, gl_calls g) :: blocks)
      end.
      cbn [map concat].
      assert (Hblock : forall m c, matrix_block (m, c)
                = [glPushMatrix; glMultMatrixf m] ++ map display_list_call c ++ [glPopMatrix])
        by reflexivity.
      rewrite Hblock, <- !app_assoc. reflexivity.
    - apply IH in H. exact H. }
  unfold render_display_lists. generalize (seq 0 8). revert o o'.
  intros o o' l. revert o o'.
  induction l as [|i rest IH]; intros o o' H; cbn [walk_lists] in H.
  - injection H as <-. exists []. cbn. rewrite app_nil_r. reflexivity.
  - destruct (walk_nodes L mem graph inverse_view_times mat4_declared fuel st _ o)
      as [[o1|status err]|] eqn:E; [|discriminate|discriminate].
    apply Hnodes in E as [b1 E]. apply IH in H as [b2 ->].
    exists (b1 ++ b2). rewrite E, map_app, concat_app, app_assoc. reflexivity.
Qed.

End CharacterDisplayListsFacts.

(** * The further properties on concrete inputs *)

Lemma valid_image_layout32 (a : Z) : 0 <= a -> a < 0xFFF00000 -> valid_image layout32 a.
Proof.
  intros H0 H1. unfold valid_image. change (sizeof_SM64State layout32) with 0x100000.
  change (ptr_modulus layout32) with 0x100000000. lia.
Qed.

Lemma from_base_round_trip_witness :
  from_base layout32 {| frame := 8; base := 0x20000000; data := 0x10000000 |}
    (from_base layout32 {| frame := 7; base := 0x10000000; data := 0x20000000 |} 0x10000010)
  = 0x10000010.
Proof.
  apply from_base_round_trip;
    [apply valid_image_layout32; lia | apply valid_image_layout32; lia | cbn; lia].
Defined.

Lemma from_base_idempotent_witness :
  from_base layout32 display_state (from_base layout32 display_state 0x10001000)
  = from_base layout32 display_state 0x10001000.
Proof.
  apply from_base_idempotent;
    [apply valid_image_layout32; cbn; lia | apply valid_image_layout32; cbn; lia
    | right; cbn; lia].
Defined.

Lemma from_base_same_image_witness :
  from_base layout32 {| frame := 0; base := 0x10000000; data := 0x10000000 |} 0x10000010
  = 0x10000010.
Proof. apply from_base_same_image; [reflexivity|vm_compute; intuition congruence]. Defined.

Lemma from_base_null_iff_witness :
  from_base layout32 display_state 0 = NULL /\
  from_base layout32 display_state 0x10000000 <> NULL.
Proof.
  assert (H : forall v, from_base layout32 display_state v = NULL <-> v = NULL).
  { intros v. apply from_base_null_iff;
      [apply valid_image_layout32; cbn; lia | apply valid_image_layout32; cbn; lia
      | cbn; lia | cbn; lia]. }
  split; [apply H; reflexivity|]. intros E. apply H in E. discriminate.
Defined.

Lemma segmented_to_virtual_returned_witness :
  0x80804 = 0x1804 \/
  exists k, (k < 32)%nat /\ segment_contains (single_table k) 0x1804 = true /\
            0x80804 = segment_translate layout32 (single_table k) 0x1804.
Proof.
  apply (segmented_to_virtual_returned layout32 single_table 0x1804 0x80804). reflexivity.
Defined.

Lemma segmented_to_virtual_exit_witness :
  (2 <= length (matching_segments double_table 0x1804))%nat.
Proof.
  apply (segmented_to_virtual_exit layout32 double_table 0x1804 1 two_segments_warning).
  reflexivity.
Defined.

Lemma segmented_to_virtual_into_destination_witness :
  exists r, segmented_to_virtual layout32 single_table 0x1804 = Returned r /\
            r - 0x80000 = 0x804 /\ 0x80000 <= r < 0x81000.
Proof.
  apply (segmented_to_virtual_into_destination layout32 single_table 0x1804 3);
    [reflexivity | cbn; lia | vm_compute; discriminate].
Defined.

Lemma get_object_list_from_behavior_range_witness :
  get_object_list_from_behavior pool_memory 8 0x20000800 = 4 /\
  get_object_list_from_behavior pool_memory 8 0x20000900 = 8.
Proof.
  split.
  - destruct (get_object_list_from_behavior_range pool_memory 8 0x20000800) as [Hbegin _].
    destruct Hbegin as [-> _]; [vm_compute; reflexivity|reflexivity].
  - destruct (get_object_list_from_behavior_range pool_memory 8 0x20000900) as [_ Hother].
    apply Hother. vm_compute. discriminate.
Defined.

Example build_scene_pools :
  map surface_type (scene_surfaces layout32 pool_memory snapshot10) = [FLOOR; WALL_X_PROJ] /\
  map object_pos (scene_objects layout32 pool_memory snapshot10) =
    [ {| vx := 3; vy := 0; vz := 0 |}; {| vx := 200; vy := 0; vz := 0 |} ].
Proof. split; vm_compute; reflexivity. Qed.

Lemma scene_surfaces_entries_witness :
  length (scene_surfaces layout32 pool_memory snapshot10) = 2%nat /\
  forall s, scene_surfaces layout32 pool_memory snapshot10 !! 1%nat = Some s ->
            surface_normal s = {| vx := 1; vy := 0; vz := 0 |}.
Proof.
  destruct (scene_surfaces_entries layout32 pool_memory snapshot10) as (Hlen & _ & Hentry).
  split; [exact Hlen|]. intros s Hs. destruct (Hentry 1%nat s Hs) as (_ & -> & _).
  reflexivity.
Defined.

Lemma scene_objects_are_the_active_slots_witness :
  (length (scene_objects layout32 pool_memory snapshot10) <= 240)%nat /\
  {| object_pos := {| vx := 200; vy := 0; vz := 0 |};
     object_hitboxHeight := 160; object_hitboxRadius := 37 |}
    ∈ scene_objects layout32 pool_memory snapshot10.
Proof.
  destruct (scene_objects_are_the_active_slots layout32 pool_memory snapshot10)
    as (Hlen & Hmem & _).
  split; [exact Hlen|]. apply Hmem. exists 200%nat.
  split; [lia|]. split; [vm_compute; discriminate|reflexivity].
Defined.

Lemma path_nodes_follow_the_history_witness :
  exists path : ObjectPath,
    object_paths (build_scene layout32 history_memory info_frame11).1 = [path] /\
    forall node, nodes path !! 2%nat = Some node -> node_pos node = {| vx := 4; vy := 0; vz := 0 |}.
Proof.
  destruct (path_nodes_follow_the_history layout32 history_memory info_frame11)
    as (path & Hpaths & _ & Hpos).
  exists path. split; [exact Hpaths|]. intros node Hnode.
  rewrite (Hpos 2%nat snapshot12 node eq_refl Hnode). vm_compute. reflexivity.
Defined.

Lemma build_scene_output_witness :
  (length (build_scene layout32 history_memory info_frame11).2 <= 1)%nat /\
  forall n, n ∈ (build_scene layout32 history_memory info_frame11).2 -> 4 < n.
Proof.
  destruct (build_scene_output layout32 history_memory info_frame11) as (Hlen & Hgt & _).
  split; [exact Hlen|]. intros n Hn. apply (Hgt n Hn).
Defined.

Lemma interpret_display_list_exits_witness :
  1 = 1 /\
  (("gSPDisplayList: 0x06020000" ++ newline)%string = ("gSPMatrix" ++ newline)%string \/
   exists w : Z,
     u8 (Z.shiftr w 24) = 0x06 /\ w <> 0x06000000 /\ w <> 0x06010000 /\
     ("gSPDisplayList: 0x06020000" ++ newline)%string
     = ("gSPDisplayList: 0x" ++ hex8 w ++ newline)%string).
Proof.
  apply (interpret_display_list_exits layout32 display_memory 1 display_state 0x20005000 ""
           gfx_initial).
  reflexivity.
Defined.

Lemma interpret_display_list_line_loops_witness :
  exists (g' : gfx) (triangles : list (Z * vector)),
    interpret_display_list layout32 display_memory 4 display_state 0x20003000 "" gfx_initial
      = Some (Returned g') /\
    gl_calls g' = [] ++ concat (map (fun t => gSP1Triangle t.1 t.2) triangles) /\
    length (gl_calls g') = (0 + 5 * length triangles)%nat.
Proof.
  destruct interpret_call_resumes as (g' & Hrun & _).
  destruct (interpret_display_list_line_loops layout32 display_memory 4 display_state
              0x20003000 "" gfx_initial g' Hrun) as (triangles & Hcalls & _ & Hlen).
  exists g', triangles. split; [exact Hrun|]. split; [exact Hcalls|exact Hlen].
Defined.

Lemma interpret_display_list_self_reference_witness :
  interpret_display_list layout32 more_display_memory 1000 display_state 0x20007000 ""
    gfx_initial = None.
Proof.
  apply (interpret_display_list_self_reference layout32 more_display_memory display_state
           0x20007000); vm_compute; reflexivity.
Defined.

Lemma interpret_display_list_skips_witness :
  interpret_display_list layout32 more_display_memory (3 + 1) display_state 0x20008000 ""
    gfx_initial =
  interpret_display_list layout32 more_display_memory 1 display_state
    (ptr layout32 (0x20008000 + 8 * Z.of_nat 3)) "" gfx_initial.
Proof.
  apply interpret_display_list_skips; [vm_compute; intuition congruence|].
  intros k Hk. destruct k as [|[|[|k]]]; [| | |lia];
    vm_compute; repeat split; discriminate.
Defined.

Example interpret_skips_then_ends :
  interpret_display_list layout32 more_display_memory 4 display_state 0x20008000 ""
    gfx_initial = Some (Returned gfx_initial).
Proof. vm_compute. reflexivity. Qed.

Lemma fixed_val32_round_trip_witness :
  fixed_val32 (fun i => if (i =? 0)%nat then 0xFFFF else if (i =? 16)%nat then 0x8000 else 0)
    0 = - 0x8000.
Proof. apply fixed_val32_round_trip; [lia|reflexivity|reflexivity]. Defined.

Lemma matrix_fixed_to_float_entries_witness :
  mat4_get (matrix_fixed_to_float mat4_zero identity_words) 1 1
    = Some (S754_finite false 8388608 (-23)) /\
  mat4_get (matrix_fixed_to_float mat4_zero identity_words) 1 0 = Some (S754_zero false).
Proof.
  assert (Hshape : Forall (fun col : list spec_float => length col = 4%nat) mat4_zero)
    by (repeat constructor).
  destruct (matrix_fixed_to_float_entries mat4_zero identity_words eq_refl Hshape)
    as [Hentry _].
  split.
  - rewrite (Hentry 1%nat 1%nat) by lia. vm_compute. reflexivity.
  - rewrite (Hentry 1%nat 0%nat) by lia. vm_compute. reflexivity.
Defined.

Lemma render_display_lists_without_character_witness :
  render_display_lists layout32 display_memory no_character_graph (fun m => m) mat4_zero 6
    display_state overlay_initial = Some (Returned overlay_initial).
Proof.
  destruct (render_display_lists layout32 display_memory no_character_graph (fun m => m)
              mat4_zero 6 display_state overlay_initial) as [r|] eqn:E.
  - f_equal. revert E.
    apply (render_display_lists_without_character layout32 display_memory
             no_character_graph (fun m => m) mat4_zero display_state).
    reflexivity.
  - vm_compute in E. discriminate.
Defined.

Example render_display_lists_character :
  exists o' : overlay,
    render_display_lists layout32 display_memory character_graph (fun m => m) mat4_zero 6
      display_state overlay_initial = Some (Returned o') /\
    overlay_calls o' =
      matrix_block (matrix_fixed_to_float mat4_zero identity_words, triangle_calls).
Proof. eexists. split; [vm_compute; reflexivity|]. vm_compute. reflexivity. Qed.

Lemma render_display_lists_blocks_witness :
  exists (o' : overlay) (blocks : list (mat4 * list gl_call)),
    render_display_lists layout32 display_memory character_graph (fun m => m) mat4_zero 6
      display_state overlay_initial = Some (Returned o') /\
    overlay_calls o' = [] ++ concat (map matrix_block blocks).
Proof.
  destruct render_display_lists_character as (o' & Hrun & _).
  destruct (render_display_lists_blocks layout32 display_memory character_graph
              (fun m => m) mat4_zero 6 display_state overlay_initial o' Hrun)
    as (blocks & Hcalls).
  exists o', blocks. split; [exact Hrun|exact Hcalls].
Defined.
